(** * Huffman coding utility (src/main.py): shallow embedding and properties

    The Python module builds a Huffman tree with [heapq] over [Node]
    objects, walks the tree to fill a [codes] dictionary, and derives size
    statistics.  A [str] is a [string] and a character an [ascii]; the
    [Counter] (an insertion-ordered dict) is an association list in
    first-occurrence order, the [codes] dict a [gmap], and the priority
    queue the Python list that [heapq] sifts in place. *)

From Stdlib Require Import ZArith Lia ZifyNat Ascii String.
From stdpp Require Import base option list gmap strings sorting.

#[local] Set Warnings "-clear-no-such-hyp".

(** ** Exceptions *)

(** Python raises [IndexError] on an out-of-range list access and on
    [pop] from an empty list.  [OutOfFuel] belongs to the model only: the
    [while] loops are unrolled a bounded number of times. *)
Inductive result (A : Type) : Type :=
| Ok (a : A)
| IndexError
| OutOfFuel.
Arguments Ok {A} a.
Arguments IndexError {A}.
Arguments OutOfFuel {A}.

(** The error monad, with stdpp's [x ← m; k] notation. *)
#[global] Instance result_bind : MBind result := fun A B k m =>
  match m with
  | Ok a => k a
  | IndexError => IndexError
  | OutOfFuel => OutOfFuel
  end.

(** ** class Node *)

#[warnings="-register-all"]
Inductive Node : Type :=
  mkNode { char : option ascii; freq : nat; left : option Node; right : option Node }.

(** [Node.__lt__]: nodes compare by frequency only. *)
Definition Node_lt (self other : Node) : bool := bool_decide (freq self < freq other).

(** ** Python list primitives used by heapq *)

Definition getitem {A : Type} (l : list A) (i : nat) : result A :=
  match l !! i with
  | Some x => Ok x
  | None => IndexError
  end.

Definition setitem {A : Type} (l : list A) (i : nat) (x : A) : result (list A) :=
  if decide (i < length l) then Ok (<[i := x]> l) else IndexError.

(** [list.pop()]: removes and returns the last item. *)
Definition list_pop {A : Type} (l : list A) : result (A * list A) :=
  match last l with
  | Some x => Ok (x, removelast l)
  | None => IndexError
  end.

(** ** heapq (CPython's Lib/heapq.py) *)

(** The [while pos > startpos] loop of [_siftdown]; returns the list and
    the final [pos]. *)
Fixpoint _siftdown_while (fuel : nat) (heap : list Node) (newitem : Node)
    (startpos pos : nat) : result (list Node * nat) :=
  if decide (startpos < pos) then
    match fuel with
    | O => OutOfFuel
    | S fuel' =>
        let parentpos := (pos - 1) / 2 in
        parent ← getitem heap parentpos;
        if Node_lt newitem parent then
          heap ← setitem heap pos parent;
          _siftdown_while fuel' heap newitem startpos parentpos
        else Ok (heap, pos)
    end
  else Ok (heap, pos).

Definition _siftdown (heap : list Node) (startpos pos : nat) : result (list Node) :=
  newitem ← getitem heap pos;
  '(heap, pos) ← _siftdown_while pos heap newitem startpos pos;
  setitem heap pos newitem.

(** The [while childpos < endpos] loop of [_siftup]. *)
Fixpoint _siftup_while (fuel : nat) (heap : list Node) (endpos pos childpos : nat)
    : result (list Node * nat) :=
  if decide (childpos < endpos) then
    match fuel with
    | O => OutOfFuel
    | S fuel' =>
        let rightpos := childpos + 1 in
        childpos ←
          if decide (rightpos < endpos) then
            l ← getitem heap childpos;
            r ← getitem heap rightpos;
            Ok (if negb (Node_lt l r) then rightpos else childpos)
          else Ok childpos;
        child ← getitem heap childpos;
        heap ← setitem heap pos child;
        let pos := childpos in
        _siftup_while fuel' heap endpos pos (2 * pos + 1)
    end
  else Ok (heap, pos).

Definition _siftup (heap : list Node) (pos : nat) : result (list Node) :=
  let endpos := length heap in
  let startpos := pos in
  newitem ← getitem heap pos;
  '(heap, pos) ← _siftup_while endpos heap endpos pos (2 * pos + 1);
  heap ← setitem heap pos newitem;
  _siftdown heap startpos pos.

Definition heappush (heap : list Node) (item : Node) : result (list Node) :=
  let heap := heap ++ [item] in
  _siftdown heap 0 (length heap - 1).

Definition heappop (heap : list Node) : result (Node * list Node) :=
  '(lastelt, heap) ← list_pop heap;
  match heap with
  | [] => Ok (lastelt, heap)
  | _ :: _ =>
      returnitem ← getitem heap 0;
      heap ← setitem heap 0 lastelt;
      heap ← _siftup heap 0;
      Ok (returnitem, heap)
  end.

(** ** collections.Counter *)

(** One [counter[c] += 1]: an existing key keeps its position, a new key
    is appended, as in an insertion-ordered dict. *)
Fixpoint Counter_incr (c : ascii) (d : list (ascii * nat)) : list (ascii * nat) :=
  match d with
  | [] => [(c, 1)]
  | (k, n) :: d' =>
      if decide (k = c) then (k, S n) :: d' else (k, n) :: Counter_incr c d'
  end.

Fixpoint Counter_update (text : string) (d : list (ascii * nat)) : list (ascii * nat) :=
  match text with
  | EmptyString => d
  | String c text' => Counter_update text' (Counter_incr c d)
  end.

Definition Counter (text : string) : list (ascii * nat) := Counter_update text [].

(** ** build_huffman_tree *)

(** [for char, freq in frequencies.items(): heappush(priority_queue, Node(char, freq))] *)
Fixpoint push_leaves (items : list (ascii * nat)) (priority_queue : list Node)
    : result (list Node) :=
  match items with
  | [] => Ok priority_queue
  | (c, f) :: items' =>
      let node := mkNode (Some c) f None None in
      priority_queue ← heappush priority_queue node;
      push_leaves items' priority_queue
  end.

(** Body of the [while len(priority_queue) > 1] loop. *)
Definition merge_step (priority_queue : list Node) : result (list Node) :=
  '(left_child, priority_queue) ← heappop priority_queue;
  '(right_child, priority_queue) ← heappop priority_queue;
  let merged_freq := freq left_child + freq right_child in
  let parent_node := mkNode None merged_freq (Some left_child) (Some right_child) in
  heappush priority_queue parent_node.

Fixpoint merge_while (fuel : nat) (priority_queue : list Node) : result (list Node) :=
  if decide (1 < length priority_queue) then
    match fuel with
    | O => OutOfFuel
    | S fuel' =>
        priority_queue ← merge_step priority_queue;
        merge_while fuel' priority_queue
    end
  else Ok priority_queue.

(** [if len(priority_queue) == 1: ...]: the single node is wrapped. *)
Definition wrap_single (priority_queue : list Node) : result (list Node) :=
  if decide (length priority_queue = 1) then
    '(node, priority_queue) ← heappop priority_queue;
    let parent_node := mkNode None (freq node) (Some node) None in
    heappush priority_queue parent_node
  else Ok priority_queue.

Definition build_huffman_tree (text : string)
    : result (option Node * list (ascii * nat)) :=
  match text with
  | EmptyString => Ok (None, [])
  | String _ _ =>
      let frequencies := Counter text in
      priority_queue ← push_leaves frequencies [];
      priority_queue ← wrap_single priority_queue;
      priority_queue ← merge_while (length priority_queue) priority_queue;
      '(root_node, _) ← heappop priority_queue;
      Ok (Some root_node, frequencies)
  end.

(** ** generate_huffman_codes *)

(** The closure [_get_codes_recursive] mutates the dict [codes]; here the
    dict is threaded through.  [_get_codes_node] is the body for a node that
    is not [None]. *)
Fixpoint _get_codes_node (node : Node) (current_code : string)
    (codes : gmap ascii string) : gmap ascii string :=
  match node with
  | mkNode (Some c) _ _ _ =>
      match current_code with
      | EmptyString => <[c := "0"%string]> codes
      | String _ _ => <[c := current_code]> codes
      end
  | mkNode None _ l r =>
      let codes :=
        match l with
        | None => codes
        | Some n => _get_codes_node n (current_code +:+ "0") codes
        end in
      match r with
      | None => codes
      | Some n => _get_codes_node n (current_code +:+ "1") codes
      end
  end.

Definition _get_codes_recursive (node : option Node) (current_code : string)
    (codes : gmap ascii string) : gmap ascii string :=
  match node with
  | None => codes
  | Some n => _get_codes_node n current_code codes
  end.

Definition generate_huffman_codes (text : string)
    : result (gmap ascii string * list (ascii * nat) * option Node) :=
  '(root_node, frequencies) ← build_huffman_tree text;
  match root_node with
  | None => Ok (∅, [], None)
  | Some _ =>
      let codes := _get_codes_recursive root_node "" ∅ in
      Ok (codes, frequencies, root_node)
  end.

(** ** huffman_utility: the size comparison *)

(** [savings / original_size_bits * 100] is a floating-point value; it is
    kept as the unevaluated quotient.  The guarded branch is the int [0]. *)
Inductive percent : Type :=
| PercentInt (z : Z)
| PercentFloat (savings original_size_bits : Z).

Record size_report : Type := mkReport {
  original_size_bits : nat;
  compressed_size_bits : nat;
  savings : Z;
  savings_percent : percent
}.

(** [codes.get(char, "")] *)
Definition codes_get (codes : gmap ascii string) (c : ascii) : string :=
  default ""%string (codes !! c).

(** [for char, freq in frequencies.items(): compressed_size_bits += len(codes.get(char, "")) * freq] *)
Definition compressed_size (frequencies : list (ascii * nat))
    (codes : gmap ascii string) : nat :=
  foldl (fun acc '(c, f) => acc + String.length (codes_get codes c) * f) 0 frequencies.

(** Lines 192-202 of [huffman_utility]. *)
Definition size_comparison (input_text : string) (frequencies : list (ascii * nat))
    (codes : gmap ascii string) : size_report :=
  let original := String.length input_text * 8 in
  let compressed := compressed_size frequencies codes in
  let savings := (Z.of_nat original - Z.of_nat compressed)%Z in
  let savings_percent :=
    if decide (0 < original) then PercentFloat savings (Z.of_nat original)
    else PercentInt 0 in
  mkReport original compressed savings savings_percent.

(** What [huffman_utility] returns: the placeholders
    [(None, "N/A", "N/A", None)] for an empty input, otherwise the numbers
    that the two size strings format.  The data frame rows and the rendered
    image path are presentation and are left out. *)
Inductive outputs : Type :=
| Placeholders
| Sizes (report : size_report).

Definition huffman_utility (input_text : string) : result outputs :=
  match input_text with
  | EmptyString => Ok Placeholders
  | String _ _ =>
      '(codes, frequencies, root_node) ← generate_huffman_codes input_text;
      Ok (Sizes (size_comparison input_text frequencies codes))
  end.

(** ** Vocabulary of the properties *)

(** Structural induction through the two optional children. *)
Section Node_induction.
Variable P : Node → Prop.
Hypothesis Hnode : ∀ c f l r,
  from_option P True l → from_option P True r → P (mkNode c f l r).

Fixpoint Node_children_ind (n : Node) : P n :=
  match n with
  | mkNode c f l r =>
      Hnode c f l r
        (match l return from_option P True l with
         | Some x => Node_children_ind x
         | None => I
         end)
        (match r return from_option P True r with
         | Some x => Node_children_ind x
         | None => I
         end)
  end.
End Node_induction.

(** Every node of a tree, root first. *)
Fixpoint subnodes (n : Node) : list Node :=
  n :: match n with
       | mkNode _ _ l r =>
           match l with Some x => subnodes x | None => [] end ++
           match r with Some x => subnodes x | None => [] end
       end.

(** The characters the traversal reaches, left to right: it stops at the
    first node on a path that carries a character. *)
Fixpoint symbols (n : Node) : list ascii :=
  match n with
  | mkNode (Some c) _ _ _ => [c]
  | mkNode None _ l r =>
      match l with Some x => symbols x | None => [] end ++
      match r with Some x => symbols x | None => [] end
  end.

(** A leaf has a character and no children; an internal node has no
    character, two children, and the sum of their weights. *)
Fixpoint strictly_binary (n : Node) : Prop :=
  match n with
  | mkNode (Some _) _ l r => l = None ∧ r = None
  | mkNode None f (Some l) (Some r) =>
      f = freq l + freq r ∧ strictly_binary l ∧ strictly_binary r
  | mkNode None _ _ _ => False
  end.

(** [leaf_path n p c]: following [p] ('0' = left, '1' = right) from [n]
    ends at the node with character [c] where the traversal stops. *)
Inductive leaf_path : Node → string → ascii → Prop :=
| leaf_here c f l r : leaf_path (mkNode (Some c) f l r) "" c
| leaf_left f l r p c :
    leaf_path l p c → leaf_path (mkNode None f (Some l) r) (String "0" p) c
| leaf_right f l r p c :
    leaf_path r p c → leaf_path (mkNode None f l (Some r)) (String "1" p) c.

(** The code recorded for an accumulated path. *)
Definition recorded (current_code : string) : string :=
  match current_code with
  | EmptyString => "0"
  | String _ _ => current_code
  end.

(** The node that one merge creates. *)
Definition merged (left_child right_child : Node) : Node :=
  mkNode None (freq left_child + freq right_child) (Some left_child) (Some right_child).

(** The wrapper of the single-symbol case. *)
Definition wrapper (node : Node) : Node := mkNode None (freq node) (Some node) None.

Definition leaf (c : ascii) (f : nat) : Node := mkNode (Some c) f None None.

Definition forest_symbols (priority_queue : list Node) : list ascii :=
  priority_queue ≫= symbols.

(** Re-encoding a text with a code table; [None] is a [KeyError]. *)
Fixpoint encode (codes : gmap ascii string) (text : string) : option string :=
  match text with
  | EmptyString => Some ""%string
  | String c text' =>
      code ← codes !! c;
      bits ← encode codes text';
      Some (code +:+ bits)
  end.

(** The characters of a text, as a set. *)
Fixpoint chars (text : string) : gset ascii :=
  match text with
  | EmptyString => ∅
  | String c text' => {[c]} ∪ chars text'
  end.

(** Total code length of a text, character by character. *)
Fixpoint code_length_sum (codes : gmap ascii string) (text : string) : nat :=
  match text with
  | EmptyString => 0
  | String c text' => String.length (codes_get codes c) + code_length_sum codes text'
  end.

(** [Σ freq × len(code)] over a frequency table. *)
Fixpoint weighted_length (codes : gmap ascii string) (d : list (ascii * nat)) : nat :=
  match d with
  | [] => 0
  | (c, f) :: d' => String.length (codes_get codes c) * f + weighted_length codes d'
  end.

(** ** The heap invariant of heapq *)

(** The item at [i], if any, is not heavier than the item at [j]. *)
Definition le_at (heap : list Node) (i j : nat) : Prop :=
  ∀ x y, heap !! i = Some x → heap !! j = Some y → freq x ≤ freq y.

(** [heap[(j - 1) >> 1] <= heap[j]] for every [j > 0]. *)
Definition heap_ordered (heap : list Node) : Prop :=
  ∀ j, 0 < j → le_at heap ((j - 1) / 2) j.

(** The invariant while an item is held out of position [pos]: every
    parent-child pair away from [pos] is ordered, and so is the parent of
    [pos] with the children of [pos]. *)
Definition hole_ordered (heap : list Node) (pos : nat) : Prop :=
  (∀ j, 0 < j → j ≠ pos → (j - 1) / 2 ≠ pos → le_at heap ((j - 1) / 2) j) ∧
  (∀ j, 0 < j → (j - 1) / 2 = pos → 0 < pos → le_at heap ((pos - 1) / 2) j).

(** The held-out item may be placed above the children of [pos]. *)
Definition above_children (heap : list Node) (pos : nat) (newitem : Node) : Prop :=
  ∀ j y, 0 < j → (j - 1) / 2 = pos → heap !! j = Some y → freq newitem ≤ freq y.

(** ** The states of the merge loop *)

(** The queues that the [while] loop of [build_huffman_tree] meets on a
    non-empty text: the queue on entry, and the queue after each iteration. *)
Inductive loop_state (text : string) : list Node → Prop :=
| loop_entry pq0 pq :
    text ≠ ""%string →
    push_leaves (Counter text) [] = Ok pq0 → wrap_single pq0 = Ok pq →
    loop_state text pq
| loop_iteration pq pq' :
    loop_state text pq → 1 < length pq → merge_step pq = Ok pq' →
    loop_state text pq'.

(** Every node without a character has two children and their summed
    weight. *)
Definition internal_nodes_binary (root : Node) : Prop :=
  ∀ n, n ∈ subnodes root → char n = None →
       ∃ l r, left n = Some l ∧ right n = Some r ∧ freq n = freq l + freq r.

(** No code of one character is a prefix of the code of another. *)
Definition prefix_free (codes : gmap ascii string) : Prop :=
  ∀ c1 c2 s1 s2, c1 ≠ c2 → codes !! c1 = Some s1 → codes !! c2 = Some s2 →
                 String.prefix s1 s2 = false.

(** ** Leaves, weights and depths *)

(** What the traversal records, left to right: the character and weight of
    each node where it stops, with the code it stores for it. *)
Fixpoint leaves (n : Node) (current_code : string) : list (ascii * nat * string) :=
  match n with
  | mkNode (Some c) f _ _ => [(c, f, recorded current_code)]
  | mkNode None _ l r =>
      match l with Some x => leaves x (current_code +:+ "0") | None => [] end ++
      match r with Some x => leaves x (current_code +:+ "1") | None => [] end
  end.

(** The same nodes with character and weight only. *)
Fixpoint leaf_entries (n : Node) : list (ascii * nat) :=
  match n with
  | mkNode (Some c) f _ _ => [(c, f)]
  | mkNode None _ l r =>
      match l with Some x => leaf_entries x | None => [] end ++
      match r with Some x => leaf_entries x | None => [] end
  end.

(** Sum of depth times weight over those nodes, computed on the tree alone. *)
Fixpoint weighted_path_length (n : Node) (depth : nat) : nat :=
  match n with
  | mkNode (Some _) f _ _ => depth * f
  | mkNode None _ l r =>
      match l with Some x => weighted_path_length x (S depth) | None => 0 end +
      match r with Some x => weighted_path_length x (S depth) | None => 0 end
  end.

(** How often a character occurs in a text. *)
Fixpoint occurrences (c : ascii) (text : string) : nat :=
  match text with
  | EmptyString => 0
  | String a text' => (if decide (a = c) then 1 else 0) + occurrences c text'
  end.

(** A string over the characters '0' and '1'. *)
Fixpoint bits_only (s : string) : Prop :=
  match s with
  | EmptyString => True
  | String a s' => (a = "0"%char ∨ a = "1"%char) ∧ bits_only s'
  end.

(** Total weight of the trees in the queue. *)
Definition forest_weight (priority_queue : list Node) : nat :=
  sum_list_with freq priority_queue.

(** ** huffman_utility: the rows of the data frame *)

(** [sorted(frequencies.items(), key=lambda item: item[1], reverse=True)].
    Python's sort is stable, also with [reverse=True]: entries with equal
    counts keep their order.  One insertion of the stable sort: *)
Fixpoint insert_by_count (item : ascii * nat) (sorted_freqs : list (ascii * nat))
    : list (ascii * nat) :=
  match sorted_freqs with
  | [] => [item]
  | x :: rest =>
      if decide (item.2 < x.2) then x :: insert_by_count item rest
      else item :: x :: rest
  end.

Definition sorted_by_count (frequencies : list (ascii * nat)) : list (ascii * nat) :=
  foldr insert_by_count [] frequencies.

(** [row = [char_display, freq, codes.get(char, "N/A")]] for each sorted
    entry.  The first column keeps the character that [char_display] shows. *)
Definition dataframe_data (frequencies : list (ascii * nat))
    (codes : gmap ascii string) : list (ascii * nat * string) :=
  map (λ '(c, f), (c, f, default "N/A" (codes !! c))) (sorted_by_count frequencies).

(** ** visualize_tree: the calls made on the Digraph *)

(** Node names: ["root"], [f"internal_{k}"] and [repr(char)].  The three
    kinds never coincide and [repr] is injective, so they are kept apart by
    construction.  The name ["'"] is given by no line of the code: it is the
    node that graphviz reads at an end of an edge passed as [repr(':')],
    see [quote_edge]. *)
Inductive node_id : Type :=
| RootId
| InternalId (k : nat)
| CharId (c : ascii)
| ApostropheId.

#[global] Instance node_id_eq_dec : EqDecision node_id.
Proof. solve_decision. Defined.

(** graphviz's [quote_edge], applied by [dot.edge] to its tail and to its
    head alike: an end of an edge is read as [node[:port[:compass]]], split
    at its first colons.  ["root"] and [f"internal_{k}"] contain no colon,
    and [repr(char)] contains one for the character ':' only: [repr(':')],
    the three characters quote, colon, quote, is read as the node ["'"] with
    the port ["'"].  [suffix] is the port that the code itself appends to the
    name of a tail ([f"{node_id}:f0"], [f"{node_id}:f1"]); behind
    [repr(':')] it would be read as the compass. *)
Definition quote_edge (name : node_id) (suffix : option string)
    : node_id * option string * option string :=
  match name with
  | CharId c =>
      if decide (c = ":"%char) then (ApostropheId, Some "'"%string, suffix)
      else (name, suffix, None)
  | _ => (name, suffix, None)
  end.

(** [dot.node(node_id, label=..., shape=...)]: the box is declared under
    the whole name (graphviz's [quote]); a node with a character gets the
    record label of the character and its frequency, any other the two-port
    label of its frequency.  [dot.edge(tail, head, label=...)]: both ends as
    graphviz reads them (node, port, compass); the tail is passed as
    [node_id] or as a port [f"{node_id}:f0"], [f"{node_id}:f1"], the head
    as the name of the child. *)
Inductive dot_call : Type :=
| DotNode (name : node_id) (char : option ascii) (freq : nat)
| DotEdge (tail head : node_id * option string * option string) (label : string).

(** The name given to a child, with the counter after it. *)
Definition child_id (child : Node) (internal_node_counter : nat) : nat * node_id :=
  match char child with
  | None => (internal_node_counter + 1, InternalId (internal_node_counter + 1))
  | Some c => (internal_node_counter, CharId c)
  end.

(** The closure [add_nodes_edges]; the nonlocal counter and the calls made
    on [dot] so far are threaded through. *)
Fixpoint add_nodes_edges (node : Node) (node_id : node_id)
    (internal_node_counter : nat) (dot : list dot_call) : nat * list dot_call :=
  match node with
  | mkNode ch f l r =>
      let dot := dot ++ [DotNode node_id ch f] in
      let '(internal_node_counter, dot) :=
        match l with
        | Some ln =>
            let '(internal_node_counter, left_id) := child_id ln internal_node_counter in
            let '(internal_node_counter, dot) :=
              add_nodes_edges ln left_id internal_node_counter dot in
            (internal_node_counter,
             dot ++ [DotEdge
                       (quote_edge node_id
                          (match ch with Some _ => None | None => Some "f0"%string end))
                       (quote_edge left_id None) "0"])
        | None => (internal_node_counter, dot)
        end in
      match r with
      | Some rn =>
          let '(internal_node_counter, right_id) := child_id rn internal_node_counter in
          let '(internal_node_counter, dot) :=
            add_nodes_edges rn right_id internal_node_counter dot in
          (internal_node_counter,
           dot ++ [DotEdge
                     (quote_edge node_id
                        (match ch with Some _ => None | None => Some "f1"%string end))
                     (quote_edge right_id None) "1"])
      | None => (internal_node_counter, dot)
      end
  end.

(** The graph that [visualize_tree] hands to [dot.render]; [None] for an
    absent root.  Rendering, and the [except] branch for its failures, belong
    to graphviz. *)
Definition visualize_tree (root_node : option Node) : option (list dot_call) :=
  match root_node with
  | None => None
  | Some root => Some (add_nodes_edges root RootId 0 []).2
  end.

(** The names declared by [dot.node], in call order. *)
Definition declared (dot : list dot_call) : list node_id :=
  omap (λ call, match call with DotNode name _ _ => Some name | DotEdge _ _ _ => None end) dot.

(** The boxes drawn: name, character and frequency. *)
Definition boxes (dot : list dot_call) : list (node_id * option ascii * nat) :=
  omap (λ call, match call with
                | DotNode name ch f => Some (name, ch, f)
                | DotEdge _ _ _ => None
                end) dot.



(** The characters carried by the nodes strictly below a node. *)
Definition chars_below (n : Node) : list ascii := omap char (tail (subnodes n)).

(** The calls made for one child link: the subtree of the child, then the
    edge to it. *)
Definition child_calls (parent : node_id) (ch : option ascii) (port label : string)
    (child : option Node) (internal_node_counter : nat) : nat * list dot_call :=
  match child with
  | Some cn =>
      let '(counter, cid) := child_id cn internal_node_counter in
      let sub := add_nodes_edges cn cid counter [] in
      (sub.1, sub.2 ++ [DotEdge
                          (quote_edge parent
                             (match ch with Some _ => None | None => Some port end))
                          (quote_edge cid None) label])
  | None => (internal_node_counter, [])
  end.

(** Names that a subtree may declare below its root: internal names
    numbered in (lo, hi], and the names of the given characters. *)
Definition name_in (lo hi : nat) (cs : list ascii) (d : node_id) : Prop :=
  match d with
  | RootId => False
  | InternalId k => lo < k ≤ hi
  | CharId c => c ∈ cs
  | ApostropheId => False
  end.

(** ** Depth assignments and greedy merging *)

(** A depth assignment gives every weight a depth; its cost is the sum of
    depth times weight. *)
Definition depth_cost (assignment : list (nat * nat)) : nat :=
  sum_list_with (λ e, e.2 * e.1) assignment.

(** The Kraft sum of a list of depths, scaled by [2 ^ H]. *)
Definition kraft_sum (H : nat) (depths : list nat) : nat :=
  sum_list_with (λ d, 2 ^ (H - d)) depths.

(** The depths fill the binary tree exactly: their Kraft sum is one. *)
Definition kraft_complete (depths : list nat) : Prop :=
  ∃ H, Forall (λ d, d ≤ H) depths ∧ kraft_sum H depths = 2 ^ H.

(** The cost of merging greedily: the two lightest weights are replaced by
    their sum, at the price of that sum, until one weight is left. *)
Inductive greedy_cost : list nat → nat → Prop :=
| greedy_one w : greedy_cost [w] 0
| greedy_merge W x y W' c :
    W ≡ₚ x :: y :: W' →
    (∀ z, z ∈ W → x ≤ z) →
    (∀ z, z ∈ y :: W' → y ≤ z) →
    greedy_cost ((x + y) :: W') c →
    greedy_cost W (c + x + y).

(** The weight and the depth of each node where the traversal stops. *)
Fixpoint leaf_depths (n : Node) (depth : nat) : list (nat * nat) :=
  match n with
  | mkNode (Some _) f _ _ => [(f, depth)]
  | mkNode None _ l r =>
      match l with Some x => leaf_depths x (S depth) | None => [] end ++
      match r with Some x => leaf_depths x (S depth) | None => [] end
  end.

(** The depths fit into the binary tree: their Kraft sum is at most one. *)
Definition kraft_within (depths : list nat) : Prop :=
  ∃ H, Forall (λ d, d ≤ H) depths ∧ kraft_sum H depths ≤ 2 ^ H.

(** No string of the list is a prefix of a string at another position. *)
Fixpoint prefix_free_list (ss : list string) : Prop :=
  match ss with
  | [] => True
  | s :: ss' =>
      Forall (λ t, String.prefix s t = false ∧ String.prefix t s = false) ss' ∧
      prefix_free_list ss'
  end.

(** The strings that start with [b], without that first character. *)
Definition tails (b : ascii) (ss : list string) : list string :=
  omap (λ s, match s with
             | String a s' => if decide (a = b) then Some s' else None
             | EmptyString => None
             end) ss.

(** ** Renaming the characters *)

(** The same tree with every character renamed. *)
Fixpoint relabel (ρ : ascii → ascii) (n : Node) : Node :=
  match n with
  | mkNode ch f l r =>
      mkNode (ρ <$> ch) f
        (match l with Some x => Some (relabel ρ x) | None => None end)
        (match r with Some x => Some (relabel ρ x) | None => None end)
  end.

(** The same text with every character renamed. *)
Fixpoint rename (ρ : ascii → ascii) (text : string) : string :=
  match text with
  | EmptyString => EmptyString
  | String c text' => String (ρ c) (rename ρ text')
  end.

(** A function applied to the value returned, if any. *)
Definition result_map {A B : Type} (g : A → B) (m : result A) : result B :=
  match m with
  | Ok a => Ok (g a)
  | IndexError => IndexError
  | OutOfFuel => OutOfFuel
  end.

(** A renaming to try: the bit that tells upper from lower case is
    flipped. *)
Definition swap_case (c : ascii) : ascii :=
  match c with
  | Ascii b0 b1 b2 b3 b4 b5 b6 b7 => Ascii b0 b1 b2 b3 b4 (negb b5) b6 b7
  end.

(** * Properties *)

(** ** Python list primitives *)

Lemma getitem_lookup {A : Type} (l : list A) (i : nat) (x : A) :
  l !! i = Some x → getitem l i = Ok x.
Proof. unfold getitem. by intros ->. Qed.

Lemma getitem_lt {A : Type} (l : list A) (i : nat) :
  i < length l → ∃ x, l !! i = Some x ∧ getitem l i = Ok x.
Proof.
  intros [x Hx]%lookup_lt_is_Some_2. exists x. split; [done|].
  by apply getitem_lookup.
Qed.

Lemma setitem_lt {A : Type} (l : list A) (i : nat) (x : A) :
  i < length l → setitem l i x = Ok (<[i := x]> l).
Proof. unfold setitem. intros ?. by rewrite decide_True. Qed.

Lemma list_pop_snoc {A : Type} (l : list A) (x : A) :
  list_pop (l ++ [x]) = Ok (x, l).
Proof. unfold list_pop. by rewrite last_snoc, removelast_last. Qed.

Lemma list_pop_nil {A : Type} : list_pop (@nil A) = IndexError.
Proof. done. Qed.

(** Overwriting the hole and then the moved item is a transposition. *)
Lemma insert_hole_Permutation (heap : list Node) (i j : nat) (x y : Node) :
  i < length heap → heap !! j = Some y →
  <[j := x]> (<[i := y]> heap) ≡ₚ <[i := x]> heap.
Proof.
  intros Hi Hj. destruct (decide (i = j)) as [->|Hne].
  - rewrite list_insert_insert_eq. done.
  - rewrite <-(list_insert_insert_eq heap i y x).
    apply Permutation_insert_swap.
    + by apply list_lookup_insert_eq.
    + by rewrite list_lookup_insert_ne.
Qed.

(** ** heapq keeps the items *)

Lemma _siftdown_while_step (fuel : nat) (heap : list Node) (newitem : Node)
    (startpos pos : nat) :
  startpos < pos →
  _siftdown_while (S fuel) heap newitem startpos pos =
    parent ← getitem heap ((pos - 1) / 2);
    if Node_lt newitem parent then
      heap ← setitem heap pos parent;
      _siftdown_while fuel heap newitem startpos ((pos - 1) / 2)
    else Ok (heap, pos).
Proof. intros ?. cbn [_siftdown_while]. by rewrite decide_True. Qed.

Lemma _siftdown_while_exit (fuel : nat) (heap : list Node) (newitem : Node)
    (startpos pos : nat) :
  ¬ startpos < pos → _siftdown_while fuel heap newitem startpos pos = Ok (heap, pos).
Proof. intros ?. destruct fuel; cbn [_siftdown_while]; by rewrite decide_False. Qed.

Lemma _siftup_while_step (fuel : nat) (heap : list Node) (endpos pos childpos : nat) :
  childpos < endpos →
  _siftup_while (S fuel) heap endpos pos childpos =
    c ← (if decide (childpos + 1 < endpos) then
           l ← getitem heap childpos;
           r ← getitem heap (childpos + 1);
           Ok (if negb (Node_lt l r) then childpos + 1 else childpos)
         else Ok childpos);
    child ← getitem heap c;
    heap ← setitem heap pos child;
    _siftup_while fuel heap endpos c (2 * c + 1).
Proof. intros ?. cbn [_siftup_while]. by rewrite decide_True. Qed.

Lemma _siftup_while_exit (fuel : nat) (heap : list Node) (endpos pos childpos : nat) :
  ¬ childpos < endpos → _siftup_while fuel heap endpos pos childpos = Ok (heap, pos).
Proof. intros ?. destruct fuel; cbn [_siftup_while]; by rewrite decide_False. Qed.

Lemma bind_Ok {A B : Type} (a : A) (k : A → result B) : Ok a ≫= k = k a.
Proof. done. Qed.

Lemma _siftdown_while_items (fuel : nat) :
  ∀ (heap : list Node) (newitem : Node) (startpos pos : nat),
    pos ≤ fuel → pos < length heap →
    ∃ heap' pos',
      _siftdown_while fuel heap newitem startpos pos = Ok (heap', pos') ∧
      pos' < length heap' ∧
      <[pos' := newitem]> heap' ≡ₚ <[pos := newitem]> heap.
Proof.
  induction fuel as [|fuel IH]; intros heap newitem startpos pos Hfuel Hpos;
    (destruct (decide (startpos < pos)) as [Hlt|Hge];
     [|rewrite _siftdown_while_exit by done; by exists heap, pos]); [lia|].
  assert ((pos - 1) / 2 < pos) as Hparent by lia.
  rewrite _siftdown_while_step by done.
  destruct (getitem_lt heap ((pos - 1) / 2)) as (parent & Hlook & ->); [lia|].
  rewrite bind_Ok. destruct (Node_lt newitem parent); [|by exists heap, pos].
  rewrite setitem_lt, bind_Ok by done.
  destruct (IH (<[pos := parent]> heap) newitem startpos ((pos - 1) / 2))
    as (heap' & pos' & -> & Hpos' & Hperm);
    [lia|rewrite length_insert; lia|].
  exists heap', pos'. split_and!; [done..|].
  rewrite Hperm. by apply insert_hole_Permutation.
Qed.

Lemma _siftdown_items (heap : list Node) (startpos pos : nat) :
  pos < length heap →
  ∃ heap', _siftdown heap startpos pos = Ok heap' ∧ heap' ≡ₚ heap.
Proof.
  intros Hpos. unfold _siftdown.
  destruct (getitem_lt heap pos) as (newitem & Hlook & ->); [done|].
  rewrite bind_Ok.
  destruct (_siftdown_while_items pos heap newitem startpos pos)
    as (heap' & pos' & -> & Hpos' & Hperm); [done..|].
  rewrite bind_Ok, setitem_lt by done. eexists; split; [done|].
  by rewrite Hperm, list_insert_id.
Qed.

Lemma _siftup_while_items (fuel : nat) :
  ∀ (heap : list Node) (newitem : Node) (pos childpos : nat),
    length heap ≤ fuel + childpos → pos < childpos → pos < length heap →
    ∃ heap' pos',
      _siftup_while fuel heap (length heap) pos childpos = Ok (heap', pos') ∧
      pos' < length heap' ∧
      <[pos' := newitem]> heap' ≡ₚ <[pos := newitem]> heap.
Proof.
  induction fuel as [|fuel IH]; intros heap newitem pos childpos Hfuel Hchild Hpos;
    (destruct (decide (childpos < length heap)) as [Hlt|Hge];
     [|rewrite _siftup_while_exit by done; by exists heap, pos]); [lia|].
  rewrite _siftup_while_step by done.
  assert (∃ c, (if decide (childpos + 1 < length heap)
                then l ← getitem heap childpos; r ← getitem heap (childpos + 1);
                     Ok (if negb (Node_lt l r) then childpos + 1 else childpos)
                else Ok childpos) = Ok c ∧ childpos ≤ c < length heap)
    as (c & -> & Hc).
  { destruct (decide (childpos + 1 < length heap)) as [Hr|Hr];
      [|exists childpos; split; [done|lia]].
    destruct (getitem_lt heap childpos) as (l & _ & ->); [done|].
    destruct (getitem_lt heap (childpos + 1)) as (r & _ & ->); [done|].
    rewrite !bind_Ok. destruct (Node_lt l r); simpl; eexists; (split; [done|lia]). }
  rewrite bind_Ok.
  destruct (getitem_lt heap c) as (child & Hlook & ->); [lia|].
  rewrite bind_Ok, setitem_lt, bind_Ok by done.
  rewrite <-(length_insert heap pos child).
  destruct (IH (<[pos := child]> heap) newitem c (2 * c + 1))
    as (heap' & pos' & -> & Hpos' & Hperm);
    [rewrite length_insert; lia|lia|rewrite length_insert; lia|].
  exists heap', pos'. split_and!; [done..|].
  rewrite Hperm. by apply insert_hole_Permutation.
Qed.

Lemma _siftup_items (heap : list Node) (pos : nat) :
  pos < length heap →
  ∃ heap', _siftup heap pos = Ok heap' ∧ heap' ≡ₚ heap.
Proof.
  intros Hpos. unfold _siftup.
  destruct (getitem_lt heap pos) as (newitem & Hlook & ->); [done|].
  rewrite bind_Ok.
  destruct (_siftup_while_items (length heap) heap newitem pos (2 * pos + 1))
    as (heap1 & pos1 & -> & Hpos1 & Hperm1); [lia..|done|].
  rewrite bind_Ok, setitem_lt, bind_Ok by done.
  destruct (_siftdown_items (<[pos1 := newitem]> heap1) pos pos1)
    as (heap2 & -> & Hperm2); [by rewrite length_insert|].
  exists heap2. split; [done|].
  by rewrite Hperm2, Hperm1, list_insert_id.
Qed.

Lemma heappush_items (heap : list Node) (item : Node) :
  ∃ heap', heappush heap item = Ok heap' ∧ heap' ≡ₚ item :: heap.
Proof.
  unfold heappush.
  destruct (_siftdown_items (heap ++ [item]) 0 (length (heap ++ [item]) - 1))
    as (heap' & -> & Hperm); [rewrite length_app; simpl; lia|].
  exists heap'. split; [done|].
  by rewrite Hperm, Permutation_app_comm.
Qed.

Lemma heappop_items (heap : list Node) :
  heap ≠ [] →
  ∃ item heap', heappop heap = Ok (item, heap') ∧ item :: heap' ≡ₚ heap.
Proof.
  intros Hne. destruct (exists_last Hne) as (body & lastelt & ->).
  unfold heappop. rewrite list_pop_snoc. simpl.
  destruct body as [|returnitem body]; [by exists lastelt, []|].
  rewrite (getitem_lookup _ 0 returnitem), bind_Ok by done.
  rewrite setitem_lt, bind_Ok by (simpl; lia). cbn [insert list_insert].
  destruct (_siftup_items (lastelt :: body) 0) as (heap' & -> & Hperm);
    [simpl; lia|].
  exists returnitem, heap'. split; [done|].
  rewrite Hperm. simpl.
  by rewrite (Permutation_app_comm body [lastelt]).
Qed.

Lemma heappop_nil : heappop [] = IndexError.
Proof. done. Qed.

(** ** The loops of build_huffman_tree *)

Lemma push_leaves_items (items : list (ascii * nat)) :
  ∀ priority_queue : list Node,
    ∃ pq', push_leaves items priority_queue = Ok pq' ∧
           pq' ≡ₚ map (λ '(c, f), leaf c f) items ++ priority_queue.
Proof.
  induction items as [|[c f] items IH]; intros pq; simpl; [by exists pq|].
  destruct (heappush_items pq (mkNode (Some c) f None None)) as (pq1 & -> & Hperm1).
  rewrite bind_Ok. destruct (IH pq1) as (pq2 & -> & Hperm2).
  exists pq2. split; [done|].
  by rewrite Hperm2, Hperm1, Permutation_middle.
Qed.

Lemma merge_step_items (priority_queue : list Node) :
  1 < length priority_queue →
  ∃ left_child right_child rest pq',
    merge_step priority_queue = Ok pq' ∧
    priority_queue ≡ₚ left_child :: right_child :: rest ∧
    pq' ≡ₚ merged left_child right_child :: rest.
Proof.
  intros Hlen. unfold merge_step.
  destruct (heappop_items priority_queue) as (l & pq1 & -> & Hperm1);
    [intros ->; simpl in *; lia|].
  rewrite bind_Ok.
  assert (length priority_queue = S (length pq1)) as Hlen1
    by (by rewrite <-Hperm1).
  destruct (heappop_items pq1) as (r & pq2 & -> & Hperm2);
    [intros ->; simpl in *; lia|].
  rewrite bind_Ok.
  destruct (heappush_items pq2 (merged l r)) as (pq3 & Hpush & Hperm3).
  exists l, r, pq2, pq3. split_and!; [done| |done].
  by rewrite <-Hperm1, <-Hperm2.
Qed.

(** The loop ends with one node and keeps every property of the forest
    that survives reordering and merging. *)
Lemma merge_while_invariant (P : list Node → Prop) :
  (∀ pq pq', pq ≡ₚ pq' → P pq → P pq') →
  (∀ l r rest, P (l :: r :: rest) → P (merged l r :: rest)) →
  ∀ (fuel : nat) (priority_queue : list Node),
    length priority_queue ≤ S fuel → priority_queue ≠ [] → P priority_queue →
    ∃ root, merge_while fuel priority_queue = Ok [root] ∧ P [root].
Proof.
  intros Hperm Hmerge. induction fuel as [|fuel IH]; intros pq Hfuel Hne HP.
  - destruct pq as [|root [|? ?]]; simpl in *; [done| |lia]. by exists root.
  - cbn [merge_while]. destruct (decide (1 < length pq)) as [Hlen|Hlen].
    + destruct (merge_step_items pq Hlen) as (l & r & rest & pq' & -> & Hpq & Hpq').
      rewrite bind_Ok. apply IH.
      * rewrite Hpq'. rewrite Hpq in Hfuel. simpl in *. lia.
      * intros ->. by apply Permutation_nil_cons in Hpq'.
      * apply (Hperm (merged l r :: rest)); [done|].
        apply Hmerge. by apply (Hperm pq).
    + destruct pq as [|root [|? ?]]; simpl in *; [done| |lia]. by exists root.
Qed.

(** ** collections.Counter *)

Lemma Counter_incr_keys (c : ascii) (d : list (ascii * nat)) :
  (Counter_incr c d).*1 = if decide (c ∈ d.*1) then d.*1 else d.*1 ++ [c].
Proof.
  induction d as [|[k n] d IH]; csimpl; [done|].
  destruct (decide (k = c)) as [->|Hne]; csimpl.
  - rewrite decide_True by left. done.
  - rewrite IH. destruct (decide (c ∈ d.*1)) as [Hin|Hin].
    + rewrite decide_True by (by right). done.
    + rewrite decide_False; [done|]. intros [?|?]%elem_of_cons; congruence.
Qed.

Lemma Counter_incr_NoDup (c : ascii) (d : list (ascii * nat)) :
  NoDup d.*1 → NoDup (Counter_incr c d).*1.
Proof.
  intros Hd. rewrite Counter_incr_keys.
  destruct (decide (c ∈ d.*1)); [done|].
  apply NoDup_app. split_and!; [done| |apply NoDup_singleton].
  intros x Hx ->%list_elem_of_singleton. done.
Qed.

Lemma Counter_incr_set (c : ascii) (d : list (ascii * nat)) :
  list_to_set (C := gset ascii) (Counter_incr c d).*1 = {[c]} ∪ list_to_set d.*1.
Proof.
  rewrite Counter_incr_keys.
  destruct (decide (c ∈ d.*1)) as [Hin|Hin].
  - apply (elem_of_list_to_set (C := gset ascii)) in Hin. set_solver.
  - rewrite list_to_set_app_L. simpl. set_solver.
Qed.

Lemma Counter_update_NoDup (text : string) :
  ∀ d, NoDup d.*1 → NoDup (Counter_update text d).*1.
Proof.
  induction text as [|c text IH]; intros d Hd; simpl; [done|].
  by apply IH, Counter_incr_NoDup.
Qed.

Lemma Counter_update_set (text : string) :
  ∀ d, list_to_set (C := gset ascii) (Counter_update text d).*1
       = chars text ∪ list_to_set d.*1.
Proof.
  induction text as [|c text IH]; intros d; simpl; [set_solver|].
  rewrite IH, Counter_incr_set. set_solver.
Qed.

Lemma Counter_NoDup (text : string) : NoDup (Counter text).*1.
Proof. apply Counter_update_NoDup. constructor. Qed.

Lemma Counter_keys (text : string) :
  list_to_set (C := gset ascii) (Counter text).*1 = chars text.
Proof. unfold Counter. rewrite Counter_update_set. simpl. set_solver. Qed.

Lemma Counter_length (text : string) : length (Counter text) = size (chars text).
Proof.
  rewrite <-Counter_keys, size_list_to_set by apply Counter_NoDup.
  by rewrite length_fmap.
Qed.

Lemma Counter_incr_weighted (codes : gmap ascii string) (c : ascii)
    (d : list (ascii * nat)) :
  weighted_length codes (Counter_incr c d)
  = String.length (codes_get codes c) + weighted_length codes d.
Proof.
  induction d as [|[k n] d IH]; simpl; [lia|].
  destruct (decide (k = c)) as [->|Hne]; simpl; [lia|]. rewrite IH. lia.
Qed.

Lemma Counter_update_weighted (codes : gmap ascii string) (text : string) :
  ∀ d, weighted_length codes (Counter_update text d)
       = code_length_sum codes text + weighted_length codes d.
Proof.
  induction text as [|c text IH]; intros d; simpl; [done|].
  rewrite IH, Counter_incr_weighted. lia.
Qed.

Lemma compressed_size_weighted (frequencies : list (ascii * nat))
    (codes : gmap ascii string) :
  compressed_size frequencies codes = weighted_length codes frequencies.
Proof.
  unfold compressed_size.
  enough (∀ acc, foldl (λ acc '(c, f), acc + String.length (codes_get codes c) * f)
                   acc frequencies = acc + weighted_length codes frequencies)
    as H by apply (H 0).
  induction frequencies as [|[c f] d IH]; intros acc; simpl; [lia|].
  rewrite IH. lia.
Qed.

Lemma compressed_size_Counter (text : string) (codes : gmap ascii string) :
  compressed_size (Counter text) codes = code_length_sum codes text.
Proof.
  rewrite compressed_size_weighted. unfold Counter.
  rewrite Counter_update_weighted. simpl. lia.
Qed.

(** A text over one character counts to a single entry. *)
Lemma Counter_update_single (c : ascii) (text : string) :
  ∀ k, chars text ⊆ {[c]} →
       Counter_update text [(c, k)] = [(c, k + String.length text)].
Proof.
  induction text as [|c' text IH]; intros k Hsub; simpl.
  - f_equal. f_equal. lia.
  - assert (c' = c) as -> by set_solver. rewrite decide_True by done.
    rewrite IH by set_solver. f_equal. f_equal. lia.
Qed.

Lemma Counter_single (c : ascii) (text : string) :
  chars text = {[c]} → Counter text = [(c, String.length text)].
Proof.
  intros Hc. destruct text as [|c' text]; simpl in *; [set_solver|].
  assert (c' = c) as -> by set_solver.
  unfold Counter. simpl. apply Counter_update_single. set_solver.
Qed.

(** ** Strings *)

Lemma append_cons (a : ascii) (s t : string) : String a s +:+ t = String a (s +:+ t).
Proof. done. Qed.

Lemma append_nil_r (s : string) : s +:+ "" = s.
Proof. induction s as [|a s IH]; [done|]. by rewrite append_cons, IH. Qed.

Lemma append_snoc (s : string) (a : ascii) (t : string) :
  (s +:+ String a "") +:+ t = s +:+ String a t.
Proof. induction s as [|b s IH]; [done|]. by rewrite !append_cons, IH. Qed.

Lemma append_length (s t : string) :
  String.length (s +:+ t) = String.length s + String.length t.
Proof. induction s as [|a s IH]; [done|]. rewrite append_cons. simpl. by rewrite IH. Qed.

Lemma recorded_append (s : string) (a : ascii) (t : string) :
  recorded (s +:+ String a t) = s +:+ String a t.
Proof. by destruct s. Qed.

(** ** The traversal *)

(** The recursion of the source, with its [None] guard. *)
Lemma _get_codes_recursive_None (current_code : string) (codes : gmap ascii string) :
  _get_codes_recursive None current_code codes = codes.
Proof. done. Qed.

Lemma _get_codes_recursive_leaf (c : ascii) (f : nat) (l r : option Node)
    (current_code : string) (codes : gmap ascii string) :
  _get_codes_recursive (Some (mkNode (Some c) f l r)) current_code codes
  = <[c := recorded current_code]> codes.
Proof. by destruct current_code. Qed.

Lemma _get_codes_recursive_internal (f : nat) (l r : option Node)
    (current_code : string) (codes : gmap ascii string) :
  _get_codes_recursive (Some (mkNode None f l r)) current_code codes
  = _get_codes_recursive r (current_code +:+ "1")
      (_get_codes_recursive l (current_code +:+ "0") codes).
Proof. by destruct l, r. Qed.

Lemma _get_codes_recursive_dom (node : option Node) :
  ∀ (current_code : string) (codes : gmap ascii string),
    dom (_get_codes_recursive node current_code codes)
    = list_to_set (from_option symbols [] node) ∪ dom codes.
Proof.
  destruct node as [n|]; [|intros; simpl; set_solver].
  induction n as [[c|] f l r IHl IHr] using Node_children_ind; intros cc codes.
  - rewrite _get_codes_recursive_leaf, dom_insert_L. simpl. set_solver.
  - rewrite _get_codes_recursive_internal.
    assert (∀ o : option Node, from_option
              (λ n, ∀ cc codes, dom (_get_codes_recursive (Some n) cc codes)
                    = list_to_set (symbols n) ∪ dom codes) True o →
            ∀ cc codes, dom (_get_codes_recursive o cc codes)
                    = list_to_set (from_option symbols [] o) ∪ dom codes) as Hopt.
    { intros [x|] Hx cc' codes'; simpl in *; [apply Hx|set_solver]. }
    rewrite (Hopt r IHr), (Hopt l IHl). cbn [from_option symbols].
    rewrite list_to_set_app_L. destruct l, r; set_solver.
Qed.

(** Every recorded entry is either already in the dict or the code of a
    path that ends at its character. *)
Lemma _get_codes_recursive_lookup (node : option Node) :
  ∀ (current_code : string) (codes : gmap ascii string) (c : ascii) (s : string),
    _get_codes_recursive node current_code codes !! c = Some s →
    codes !! c = Some s ∨
    ∃ n p, node = Some n ∧ leaf_path n p c ∧ s = recorded (current_code +:+ p).
Proof.
  destruct node as [n|]; [|intros; by left].
  induction n as [[c0|] f l r IHl IHr] using Node_children_ind; intros cc codes c s.
  - rewrite _get_codes_recursive_leaf. intros Hlook.
    destruct (decide (c0 = c)) as [->|Hne].
    + rewrite lookup_insert_eq in Hlook. injection Hlook as <-.
      right. exists (mkNode (Some c) f l r), ""%string.
      split_and!; [done|constructor|by rewrite append_nil_r].
    + rewrite lookup_insert_ne in Hlook by done. by left.
  - rewrite _get_codes_recursive_internal. intros Hlook.
    assert (_get_codes_recursive l (cc +:+ "0") codes !! c = Some s ∨
            ∃ p, leaf_path (mkNode None f l r) p c ∧ s = recorded (cc +:+ p))
      as [Hl|Hr].
    { destruct r as [x|]; [|by left]. simpl in IHr.
      destruct (IHr _ _ _ _ Hlook) as [?|(n & p & [= <-] & Hp & ->)]; [by left|].
      right. exists (String "1" p). split; [by constructor|].
      by rewrite append_snoc. }
    + destruct l as [x|]; [|by left]. simpl in IHl.
      destruct (IHl _ _ _ _ Hl) as [?|(n & p & [= ->] & Hp & ->)]; [by left|].
      right. exists (mkNode None f (Some n) r), (String "0" p).
      split_and!; [done|by constructor|by rewrite append_snoc].
    + destruct Hr as (p & Hp & ->). right. by exists (mkNode None f l r), p.
Qed.

(** A path that stops at a character cannot continue to another one. *)
Lemma leaf_path_prefix (n : Node) (p1 p2 : string) (c1 c2 : ascii) :
  leaf_path n p1 c1 → leaf_path n p2 c2 → String.prefix p1 p2 = true → c1 = c2.
Proof.
  intros H1. revert p2. induction H1 as [c f l r|f l r p c H1 IH|f l r p c H1 IH];
    intros p2 H2 Hpre; inversion H2; subst; simpl in Hpre; try done.
  - destruct (ascii_dec "0" "0"); [eauto|done].
  - destruct (ascii_dec "1" "1"); [eauto|done].
Qed.

Lemma leaf_path_recorded_prefix (n : Node) (p1 p2 : string) (c1 c2 : ascii) :
  leaf_path n p1 c1 → leaf_path n p2 c2 →
  String.prefix (recorded p1) (recorded p2) = true → c1 = c2.
Proof.
  intros H1 H2 Hpre. destruct H1 as [c f l r|f l r p c H1|f l r p c H1].
  - inversion H2; by subst.
  - apply (leaf_path_prefix _ _ _ _ _ (leaf_left f l r p c H1) H2).
    inversion H2; by subst.
  - apply (leaf_path_prefix _ _ _ _ _ (leaf_right f l r p c H1) H2).
    inversion H2; by subst.
Qed.

(** The codes of a whole tree are prefix-free. *)
Lemma _get_codes_prefix_free (root : Node) (c1 c2 : ascii) (s1 s2 : string) :
  c1 ≠ c2 →
  _get_codes_recursive (Some root) "" ∅ !! c1 = Some s1 →
  _get_codes_recursive (Some root) "" ∅ !! c2 = Some s2 →
  String.prefix s1 s2 = false.
Proof.
  intros Hne H1 H2.
  apply _get_codes_recursive_lookup in H1 as [H1|(n1 & p1 & [= <-] & Hp1 & ->)];
    [by rewrite lookup_empty in H1|].
  apply _get_codes_recursive_lookup in H2 as [H2|(n2 & p2 & [= <-] & Hp2 & ->)];
    [by rewrite lookup_empty in H2|].
  destruct (String.prefix _ _) eqn:Hpre; [|done].
  destruct Hne. by eapply leaf_path_recorded_prefix.
Qed.

(** ** Forests *)

Lemma strictly_binary_subnodes (root : Node) :
  strictly_binary root → internal_nodes_binary root.
Proof.
  unfold internal_nodes_binary.
  induction root as [[c|] f l r IHl IHr] using Node_children_ind; simpl.
  - intros [-> ->] n ->%list_elem_of_singleton. done.
  - destruct l as [l|], r as [r|]; try done. simpl in *.
    intros (-> & Hl & Hr) n [->|[Hn|Hn]%elem_of_app]%elem_of_cons; eauto.
Qed.

Lemma forest_symbols_leaves (items : list (ascii * nat)) :
  forest_symbols (map (λ '(c, f), leaf c f) items) = items.*1.
Proof.
  induction items as [|[c f] items IH]; [done|].
  unfold forest_symbols in *. csimpl. by rewrite IH.
Qed.

Lemma strictly_binary_leaves (items : list (ascii * nat)) :
  Forall strictly_binary (map (λ '(c, f), leaf c f) items).
Proof. induction items as [|[c f] items IH]; constructor; done. Qed.

(** ** build_huffman_tree *)

Lemma heappop_singleton (node : Node) : heappop [node] = Ok (node, []).
Proof. done. Qed.

Lemma heappush_nil (node : Node) : heappush [] node = Ok [node].
Proof. done. Qed.

Lemma build_huffman_tree_empty : build_huffman_tree "" = Ok (None, []).
Proof. done. Qed.

(** One distinct symbol: the leaf is wrapped, with no right child. *)
Lemma build_huffman_tree_single (text : string) (c : ascii) (n : nat) :
  Counter text = [(c, n)] →
  build_huffman_tree text = Ok (Some (wrapper (leaf c n)), [(c, n)]).
Proof.
  intros Hcount. destruct text as [|a text]; [done|].
  unfold build_huffman_tree. rewrite Hcount. done.
Qed.

(** Two or more distinct symbols: a strictly binary tree over exactly the
    counted symbols. *)
Lemma build_huffman_tree_multi (text : string) :
  1 < length (Counter text) →
  ∃ root, build_huffman_tree text = Ok (Some root, Counter text) ∧
          strictly_binary root ∧ symbols root ≡ₚ (Counter text).*1.
Proof.
  intros Hlen. destruct text as [|a text]; [simpl in Hlen; lia|].
  unfold build_huffman_tree. set (frequencies := Counter (String a text)) in *.
  destruct (push_leaves_items frequencies []) as (pq & -> & Hpq).
  rewrite bind_Ok, app_nil_r in *.
  assert (length pq = length frequencies) as Hpqlen
    by (by rewrite Hpq, length_map).
  unfold wrap_single. rewrite decide_False, bind_Ok by lia.
  destruct (merge_while_invariant
              (λ pq, Forall strictly_binary pq ∧ forest_symbols pq ≡ₚ frequencies.*1)
              ) with (fuel := length pq) (priority_queue := pq)
    as (root & -> & Hsb & Hsym).
  - intros pq1 pq2 Hperm [? ?]. unfold forest_symbols. by rewrite <-Hperm.
  - intros l r rest [Hsb Hsym]. inversion Hsb as [|? ? Hl Hsb']; subst.
    inversion Hsb' as [|? ? Hr Hrest]; subst. split.
    + constructor; [|done]. by simpl.
    + rewrite <-Hsym. unfold forest_symbols. csimpl. by rewrite (assoc (++)).
  - lia.
  - intros ->. simpl in *. lia.
  - split; [rewrite Hpq; apply strictly_binary_leaves|].
    unfold forest_symbols. rewrite Hpq. apply reflexive_eq, forest_symbols_leaves.
  - rewrite bind_Ok, heappop_singleton, bind_Ok. exists root. split_and!; [done| |].
    + by inversion Hsb.
    + unfold forest_symbols in Hsym. csimpl in Hsym. by rewrite app_nil_r in Hsym.
Qed.

(** In both cases a tree comes back, over exactly the counted symbols. *)
Lemma build_huffman_tree_symbols (text : string) :
  text ≠ ""%string →
  ∃ root, build_huffman_tree text = Ok (Some root, Counter text) ∧
          symbols root ≡ₚ (Counter text).*1.
Proof.
  intros Hne. destruct (Counter text) as [|[c n] [|e d]] eqn:Hcount.
  - destruct text as [|a text]; [done|].
    pose proof (Counter_length (String a text)) as Hlen.
    rewrite Hcount in Hlen. simpl in Hlen. symmetry in Hlen.
    apply size_empty_iff in Hlen. set_solver.
  - exists (wrapper (leaf c n)). by rewrite (build_huffman_tree_single text c n).
  - destruct (build_huffman_tree_multi text) as (root & Hb & _ & Hs);
      [rewrite Hcount; simpl; lia|].
    exists root. by rewrite <-Hcount.
Qed.

(** ** generate_huffman_codes *)

Lemma generate_huffman_codes_empty : generate_huffman_codes "" = Ok (∅, [], None).
Proof. done. Qed.

Lemma generate_huffman_codes_built (text : string) (root : Node)
    (frequencies : list (ascii * nat)) :
  build_huffman_tree text = Ok (Some root, frequencies) →
  generate_huffman_codes text
  = Ok (_get_codes_recursive (Some root) "" ∅, frequencies, Some root).
Proof. intros Hb. unfold generate_huffman_codes. by rewrite Hb. Qed.

(** The pipeline returns for every input, and its code table has exactly
    the characters of the text as keys. *)
Lemma generate_huffman_codes_total (text : string) :
  ∃ codes root,
    generate_huffman_codes text = Ok (codes, Counter text, root) ∧
    codes = _get_codes_recursive root "" ∅ ∧
    dom codes = chars text.
Proof.
  destruct (decide (text = ""%string)) as [->|Hne].
  - exists ∅, None. split_and!; [done..|]. simpl. set_solver.
  - destruct (build_huffman_tree_symbols text Hne) as (root & Hb & Hsym).
    eexists _, (Some root). split_and!;
      [by apply generate_huffman_codes_built|done|].
    rewrite _get_codes_recursive_dom, dom_empty_L, <-Counter_keys. simpl.
    rewrite (right_id_L ∅ (∪)).
    apply set_eq. intros x. rewrite !elem_of_list_to_set. by rewrite Hsym.
Qed.

Lemma encode_length (codes : gmap ascii string) (text : string) :
  chars text ⊆ dom codes →
  ∃ bits, encode codes text = Some bits ∧
          String.length bits = code_length_sum codes text.
Proof.
  induction text as [|c text IH]; intros Hsub; simpl; [by exists ""%string|].
  assert (is_Some (codes !! c)) as [code Hcode]
    by (apply elem_of_dom; set_solver).
  destruct IH as (bits & Hbits & Hlen); [set_solver|].
  exists (code +:+ bits). rewrite Hcode, Hbits. split; [done|].
  rewrite append_length, Hlen. unfold codes_get. by rewrite Hcode.
Qed.

(** ** heapq keeps the heap invariant *)

Lemma Node_lt_true (x y : Node) : Node_lt x y = true → freq x < freq y.
Proof. unfold Node_lt. by intros ?%bool_decide_eq_true. Qed.

Lemma Node_lt_false (x y : Node) : Node_lt x y = false → freq y ≤ freq x.
Proof. unfold Node_lt. intros ?%bool_decide_eq_false. lia. Qed.

Lemma lookup_insert_hole (heap : list Node) (pos j : nat) (x y : Node) :
  <[pos := x]> heap !! j = Some y →
  (j = pos ∧ y = x) ∨ (j ≠ pos ∧ heap !! j = Some y).
Proof.
  intros [(-> & -> & _)|[? ?]]%list_lookup_insert_Some; [by left|by right].
Qed.

Lemma hole_ordered_insert (heap : list Node) (pos : nat) (x : Node) :
  hole_ordered heap pos → hole_ordered (<[pos := x]> heap) pos.
Proof.
  intros [Hedges Hgrand]. split.
  - intros j Hj Hne Hpar a b Ha Hb.
    rewrite list_lookup_insert_ne in Ha, Hb by done.
    exact (Hedges j Hj Hne Hpar a b Ha Hb).
  - intros j Hj Hpar Hpos a b Ha Hb.
    rewrite list_lookup_insert_ne in Ha, Hb by lia.
    exact (Hgrand j Hj Hpar Hpos a b Ha Hb).
Qed.

Lemma hole_ordered_fill (heap : list Node) (pos : nat) (newitem : Node) :
  hole_ordered heap pos → above_children heap pos newitem →
  (0 < pos → ∀ parent, heap !! ((pos - 1) / 2) = Some parent →
             freq parent ≤ freq newitem) →
  heap_ordered (<[pos := newitem]> heap).
Proof.
  intros [Hedges Hgrand] Habove Hparent j Hj a b Ha Hb.
  apply lookup_insert_hole in Ha as [[Hpar ->]|[Hpar Ha]];
    apply lookup_insert_hole in Hb as [[-> ->]|[Hne Hb]]; try lia.
  - by eapply Habove.
  - by apply Hparent.
  - by eapply Hedges.
Qed.

Lemma _siftdown_while_ordered (fuel : nat) :
  ∀ (heap : list Node) (newitem : Node) (pos : nat) heap' pos',
    hole_ordered heap pos → above_children heap pos newitem →
    _siftdown_while fuel heap newitem 0 pos = Ok (heap', pos') →
    heap_ordered (<[pos' := newitem]> heap').
Proof.
  induction fuel as [|fuel IH]; intros heap newitem pos heap' pos' Hhole Habove;
    (destruct (decide (0 < pos)) as [Hpos|Hpos];
     [|rewrite _siftdown_while_exit by done; intros [= <- <-];
       apply hole_ordered_fill; [done..|lia]]); [by cbn; rewrite decide_True|].
  rewrite _siftdown_while_step by done.
  destruct (getitem heap ((pos - 1) / 2)) as [parent| |] eqn:Hget; try done.
  assert (heap !! ((pos - 1) / 2) = Some parent) as Hparent
    by (unfold getitem in Hget; by destruct (heap !! _); simplify_eq).
  rewrite bind_Ok. destruct (Node_lt newitem parent) eqn:Hlt.
  - apply Node_lt_true in Hlt.
    destruct (setitem heap pos parent) as [heap1| |] eqn:Hset; try done.
    unfold setitem in Hset. destruct (decide (pos < length heap)); [|done].
    injection Hset as <-. rewrite bind_Ok. apply IH.
    + destruct Hhole as [Hedges Hgrand]. split.
      * intros j Hj Hne Hpar a b Ha Hb.
        apply lookup_insert_hole in Ha as [[Hpar' ->]|[Hpar' Ha]];
          apply lookup_insert_hole in Hb as [[-> ->]|[Hne' Hb]]; try lia.
        -- exact (Hgrand j Hj Hpar' Hpos parent b Hparent Hb).
        -- exact (Hedges j Hj Hne' Hpar' a b Ha Hb).
      * intros j Hj Hpar Hpp a b Ha Hb.
        rewrite list_lookup_insert_ne in Ha by lia.
        assert (freq a ≤ freq parent) as Hgp
          by (refine (Hedges ((pos - 1) / 2) _ _ _ a parent Ha Hparent); lia).
        apply lookup_insert_hole in Hb as [[-> ->]|[Hne' Hb]]; [done|].
        etrans; [exact Hgp|]. rewrite <-Hpar in Hparent.
        refine (Hedges j Hj Hne' _ parent b Hparent Hb). lia.
    + intros j b Hj Hpar Hb.
      apply lookup_insert_hole in Hb as [[-> ->]|[Hne' Hb]]; [lia|].
      destruct Hhole as [Hedges _]. rewrite <-Hpar in Hparent.
      assert (freq parent ≤ freq b)
        by (refine (Hedges j Hj Hne' _ parent b Hparent Hb); lia).
      lia.
  - apply Node_lt_false in Hlt. intros [= <- <-].
    apply hole_ordered_fill; [done..|]. intros _ p Hp. by simplify_eq.
Qed.

Lemma _siftdown_ordered (heap : list Node) (pos : nat) heap' :
  hole_ordered heap pos →
  (∀ newitem, heap !! pos = Some newitem → above_children heap pos newitem) →
  _siftdown heap 0 pos = Ok heap' → heap_ordered heap'.
Proof.
  intros Hhole Habove. unfold _siftdown.
  destruct (getitem heap pos) as [newitem| |] eqn:Hget; try done.
  assert (heap !! pos = Some newitem) as Hlook
    by (unfold getitem in Hget; by destruct (heap !! _); simplify_eq).
  rewrite bind_Ok.
  destruct (_siftdown_while pos heap newitem 0 pos) as [[heap1 pos1]| |] eqn:Hloop;
    try done.
  rewrite bind_Ok. unfold setitem. destruct (decide _); [|done].
  intros [= <-]. eapply _siftdown_while_ordered; eauto.
Qed.

Lemma _siftup_while_ordered (fuel : nat) :
  ∀ (heap : list Node) (pos : nat) heap' pos',
    hole_ordered heap pos →
    _siftup_while fuel heap (length heap) pos (2 * pos + 1) = Ok (heap', pos') →
    hole_ordered heap' pos' ∧ length heap' ≤ 2 * pos' + 1.
Proof.
  induction fuel as [|fuel IH]; intros heap pos heap' pos' Hhole;
    (destruct (decide (2 * pos + 1 < length heap)) as [Hlt|Hge];
     [|rewrite _siftup_while_exit by done; intros [= <- <-]; split; [done|lia]]);
    [by cbn; rewrite decide_True|].
  rewrite _siftup_while_step by done.
  set (childpos := 2 * pos + 1) in *.
  destruct (getitem_lt heap childpos) as (l & Hl & Hgetl); [done|].
  assert (∃ c child,
    (if decide (childpos + 1 < length heap)
     then l ← getitem heap childpos; r ← getitem heap (childpos + 1);
          Ok (if negb (Node_lt l r) then childpos + 1 else childpos)
     else Ok childpos) = Ok c ∧
    heap !! c = Some child ∧ (c = childpos ∨ c = childpos + 1) ∧
    ∀ j y, (j = childpos ∨ j = childpos + 1) → heap !! j = Some y →
           freq child ≤ freq y) as (c & child & -> & Hchild & Hc & Hmin).
  { destruct (decide (childpos + 1 < length heap)) as [Hr|Hr].
    - destruct (getitem_lt heap (childpos + 1)) as (r & Hr' & Hgetr); [done|].
      rewrite Hgetl, Hgetr, !bind_Ok. destruct (Node_lt l r) eqn:Hcmp; simpl.
      + apply Node_lt_true in Hcmp. exists childpos, l. split_and!; [done..|by left|].
        intros j y [->| ->] Hy; simplify_eq; lia.
      + apply Node_lt_false in Hcmp. exists (childpos + 1), r.
        split_and!; [done..|by right|].
        intros j y [->| ->] Hy; simplify_eq; lia.
    - exists childpos, l. split_and!; [done..|by left|].
      intros j y [->| ->] Hy; simplify_eq; [lia|].
      apply lookup_lt_Some in Hy. lia. }
  rewrite bind_Ok, (getitem_lookup _ _ _ Hchild), bind_Ok.
  rewrite setitem_lt, bind_Ok by lia.
  rewrite <-(length_insert heap pos child). intros Hloop.
  apply IH in Hloop; [done|].
  assert ((c - 1) / 2 = pos ∧ 0 < c ∧ pos < c) as (Hcp & Hc0 & Hcpos)
    by (unfold childpos in *; lia).
  destruct Hhole as [Hedges Hgrand]. split.
  - intros j Hj Hne Hpar a b Ha Hb.
    apply lookup_insert_hole in Ha as [[Hpar' ->]|[Hpar' Ha]];
      apply lookup_insert_hole in Hb as [[-> ->]|[Hne' Hb]]; try lia.
    + apply (Hmin j b); [unfold childpos in *; lia|done].
    + refine (Hgrand c Hc0 Hcp _ a child Ha Hchild). lia.
    + exact (Hedges j Hj Hne' Hpar' a b Ha Hb).
  - intros j Hj Hpar Hc' a b Ha Hb.
    rewrite Hcp, list_lookup_insert_eq in Ha by lia. injection Ha as <-.
    rewrite list_lookup_insert_ne in Hb by lia. rewrite <-Hpar in Hchild.
    refine (Hedges j Hj _ _ child b Hchild Hb); lia.
Qed.

Lemma _siftup_ordered (heap : list Node) heap' :
  hole_ordered heap 0 → _siftup heap 0 = Ok heap' → heap_ordered heap'.
Proof.
  intros Hhole. unfold _siftup.
  destruct (getitem heap 0) as [newitem| |]; try done. rewrite bind_Ok.
  destruct (_siftup_while _ _ _ _ _) as [[heap1 pos1]| |] eqn:Hloop; try done.
  apply _siftup_while_ordered in Hloop as [Hhole1 Hleaf]; [|done].
  rewrite bind_Ok. unfold setitem. destruct (decide _); [|done].
  rewrite bind_Ok. apply _siftdown_ordered.
  - by apply hole_ordered_insert.
  - intros x _ j y Hj Hpar Hy. apply lookup_lt_Some in Hy.
    rewrite length_insert in Hy. lia.
Qed.

Lemma heap_ordered_nil : heap_ordered [].
Proof. intros j _ x y Hx. done. Qed.

Lemma heap_ordered_snoc (heap : list Node) (x : Node) :
  heap_ordered (heap ++ [x]) → heap_ordered heap.
Proof.
  intros Hord j Hj a b Ha Hb.
  eapply (Hord j Hj); by apply lookup_app_l_Some.
Qed.

Lemma heappush_ordered (heap : list Node) (item : Node) heap' :
  heap_ordered heap → heappush heap item = Ok heap' → heap_ordered heap'.
Proof.
  intros Hord. unfold heappush. rewrite length_app. simpl.
  replace (length heap + 1 - 1) with (length heap) by lia.
  apply _siftdown_ordered.
  - split.
    + intros j Hj Hne Hpar a b Ha Hb.
      assert (j < length heap) by (apply lookup_lt_Some in Hb;
        rewrite length_app in Hb; simpl in Hb; lia).
      rewrite lookup_app_l in Ha, Hb by lia. by eapply Hord.
    + intros j Hj Hpar _ a b _ Hb. apply lookup_lt_Some in Hb.
      rewrite length_app in Hb. simpl in Hb. lia.
  - intros x _ j y Hj Hpar Hy. apply lookup_lt_Some in Hy.
    rewrite length_app in Hy. simpl in Hy. lia.
Qed.

(** The root of an ordered heap is a lightest item. *)
Lemma heap_ordered_root (heap : list Node) (root : Node) :
  heap_ordered heap → heap !! 0 = Some root →
  ∀ x, x ∈ heap → freq root ≤ freq x.
Proof.
  intros Hord Hroot x [j Hj]%list_elem_of_lookup. revert x Hj.
  induction j as [j IH] using lt_wf_ind. intros x Hj.
  destruct (decide (j = 0)) as [->|Hne]; [by simplify_eq|].
  destruct (lookup_lt_is_Some_2 heap ((j - 1) / 2)) as [p Hp];
    [apply lookup_lt_Some in Hj; lia|].
  etrans; [apply (IH ((j - 1) / 2)); [lia|done]|].
  by eapply (Hord j); [lia| |].
Qed.

Lemma heappop_ordered (heap : list Node) (item : Node) heap' :
  heap_ordered heap → heappop heap = Ok (item, heap') →
  heap_ordered heap' ∧ ∀ x, x ∈ heap → freq item ≤ freq x.
Proof.
  intros Hord. destruct (decide (heap = [])) as [->|Hne]; [done|].
  destruct (exists_last Hne) as (body & lastelt & ->).
  unfold heappop. rewrite list_pop_snoc, bind_Ok.
  destruct body as [|returnitem body].
  - intros [= <- <-]. split; [apply heap_ordered_nil|].
    by intros x ->%list_elem_of_singleton.
  - rewrite (getitem_lookup _ 0 returnitem), bind_Ok by done.
    rewrite setitem_lt, bind_Ok by (simpl; lia). cbn [insert list_insert].
    destruct (_siftup (lastelt :: body) 0) as [heap1| |] eqn:Hsift; try done.
    rewrite bind_Ok. intros [= <- <-]. split.
    + eapply _siftup_ordered; [|done]. split; [|lia].
      intros j Hj Hne' Hpar a b Ha Hb.
      apply heap_ordered_snoc in Hord. eapply (Hord j Hj).
      * destruct ((j - 1) / 2) as [|k] eqn:E; [done|]. exact Ha.
      * destruct j as [|k]; [done|]. exact Hb.
    + by apply heap_ordered_root.
Qed.

(** ** The merge loop works on an ordered heap *)

Lemma push_leaves_ordered (items : list (ascii * nat)) :
  ∀ pq pq', heap_ordered pq → push_leaves items pq = Ok pq' → heap_ordered pq'.
Proof.
  induction items as [|[c f] items IH]; intros pq pq' Hord; simpl;
    [by intros [= <-]|].
  destruct (heappush pq _) as [pq1| |] eqn:Hpush; try done.
  rewrite bind_Ok. apply IH. by eapply heappush_ordered.
Qed.

Lemma wrap_single_ordered (pq pq' : list Node) :
  heap_ordered pq → wrap_single pq = Ok pq' → heap_ordered pq'.
Proof.
  intros Hord. unfold wrap_single. destruct (decide _); [|by intros [= <-]].
  destruct (heappop pq) as [[node pq1]| |] eqn:Hpop; try done.
  rewrite bind_Ok. apply heappop_ordered in Hpop as [Hord1 _]; [|done].
  by apply heappush_ordered.
Qed.

Lemma merge_step_ordered (pq pq' : list Node) :
  heap_ordered pq → merge_step pq = Ok pq' → heap_ordered pq'.
Proof.
  intros Hord. unfold merge_step.
  destruct (heappop pq) as [[l pq1]| |] eqn:Hpop1; try done. rewrite bind_Ok.
  apply heappop_ordered in Hpop1 as [Hord1 _]; [|done].
  destruct (heappop pq1) as [[r pq2]| |] eqn:Hpop2; try done. rewrite bind_Ok.
  apply heappop_ordered in Hpop2 as [Hord2 _]; [|done].
  by apply heappush_ordered.
Qed.

Lemma loop_state_ordered (text : string) (pq : list Node) :
  loop_state text pq → heap_ordered pq.
Proof.
  induction 1 as [pq0 pq _ Hpush Hwrap|pq pq' _ IH _ Hstep].
  - eapply wrap_single_ordered; [|done].
    eapply push_leaves_ordered; [apply heap_ordered_nil|done].
  - by eapply merge_step_ordered.
Qed.

(** * The claims *)

(** C1 (as stated, refuted): on "AAAAA" the tree that [build_huffman_tree]
    returns has an internal node, its root, whose right child is absent, so
    not every internal node has two children. *)
Lemma single_symbol_root_lacks_right_child :
  ∃ root frequencies,
    build_huffman_tree "AAAAA" = Ok (Some root, frequencies) ∧
    root ∈ subnodes root ∧ char root = None ∧ right root = None ∧
    ¬ internal_nodes_binary root.
Proof.
  eexists _, _. split; [vm_compute; reflexivity|].
  split_and!; [by left|done|done|].
  intros Hbin. destruct (Hbin _ (list_elem_of_here _ _) eq_refl)
    as (l & r & _ & Hr & _). done.
Qed.

(** C1 (amended): for a text with at least two distinct characters every
    internal node of the returned tree has a left and a right child and
    weighs the sum of the two; for a text with exactly one distinct
    character the returned root is an internal node with the leaf as its left
    child, no right child, and the leaf's weight. *)
Theorem build_huffman_tree_shape (text : string) :
  (1 < size (chars text) →
   ∃ root, build_huffman_tree text = Ok (Some root, Counter text) ∧
           internal_nodes_binary root) ∧
  (∀ c, chars text = {[c]} →
        build_huffman_tree text
        = Ok (Some (mkNode None (String.length text)
                      (Some (mkNode (Some c) (String.length text) None None)) None),
              [(c, String.length text)])).
Proof.
  split.
  - intros Hsize. rewrite <-Counter_length in Hsize.
    destruct (build_huffman_tree_multi text Hsize) as (root & Hb & Hsb & _).
    exists root. split; [done|]. by apply strictly_binary_subnodes.
  - intros c Hc. by apply build_huffman_tree_single, Counter_single.
Qed.

(** The two cases on "AB" and on "AAAAA". *)
Lemma build_huffman_tree_shape_AB_AAAAA :
  (∃ root, build_huffman_tree "AB" = Ok (Some root, Counter "AB") ∧
           internal_nodes_binary root) ∧
  build_huffman_tree "AAAAA"
  = Ok (Some (mkNode None 5 (Some (mkNode (Some "A"%char) 5 None None)) None),
        [("A"%char, 5)]).
Proof.
  split.
  - apply (proj1 (build_huffman_tree_shape "AB")). vm_compute. lia.
  - apply (proj2 (build_huffman_tree_shape "AAAAA") "A"%char). set_solver.
Defined.

(** C2: a text made of one distinct character [c] counts to [{c: len}],
    the leaf is wrapped as the left child of a synthetic node, the code
    table is [{c: "0"}] and the compressed size is the occurrence count
    ("AAAAA": A:5, code "0", 5 bits). *)
Theorem single_symbol_pipeline (text : string) (c : ascii) :
  chars text = {[c]} →
  Counter text = [(c, String.length text)] ∧
  generate_huffman_codes text
  = Ok ({[c := "0"]}, [(c, String.length text)],
        Some (mkNode None (String.length text)
                (Some (mkNode (Some c) (String.length text) None None)) None)) ∧
  huffman_utility text
  = Ok (Sizes (size_comparison text [(c, String.length text)] {[c := "0"]})) ∧
  compressed_size_bits (size_comparison text [(c, String.length text)] {[c := "0"]})
  = String.length text.
Proof.
  intros Hc. pose proof (Counter_single c text Hc) as Hcount.
  pose proof (build_huffman_tree_single text c _ Hcount) as Hb.
  assert (generate_huffman_codes text
          = Ok ({[c := "0"]}, [(c, String.length text)],
                Some (wrapper (leaf c (String.length text))))) as Hgen.
  { rewrite (generate_huffman_codes_built _ _ _ Hb). unfold wrapper, leaf.
    rewrite _get_codes_recursive_internal, _get_codes_recursive_leaf.
    by rewrite _get_codes_recursive_None, insert_empty. }
  split_and!; [done|done| |].
  - destruct text as [|a text]; [simpl in Hc; set_solver|].
    unfold huffman_utility. by rewrite Hgen.
  - cbn [size_comparison compressed_size_bits]. unfold compressed_size, codes_get.
    simpl. rewrite lookup_singleton_eq. simpl. lia.
Qed.

(** The instance "AAAAA". *)
Lemma single_symbol_pipeline_AAAAA :
  chars "AAAAA" = {["A"%char]} ∧
  Counter "AAAAA" = [("A"%char, 5)] ∧
  generate_huffman_codes "AAAAA"
  = Ok ({["A"%char := "0"]}, [("A"%char, 5)],
        Some (mkNode None 5 (Some (mkNode (Some "A"%char) 5 None None)) None)) ∧
  compressed_size_bits (size_comparison "AAAAA" [("A"%char, 5)] {["A"%char := "0"]}) = 5.
Proof.
  assert (chars "AAAAA" = {["A"%char]}) as Hc by set_solver.
  destruct (single_symbol_pipeline "AAAAA" "A"%char Hc) as (H1 & H2 & _ & H4).
  split_and!; [exact Hc|exact H1|exact H2|exact H4].
Defined.

(** C3: for a text with at least two distinct characters the code table is
    prefix-free: no character's code is a prefix of another character's
    code. *)
Theorem codes_prefix_free (text : string) :
  1 < size (chars text) →
  ∃ codes frequencies root,
    generate_huffman_codes text = Ok (codes, frequencies, root) ∧
    dom codes = chars text ∧ prefix_free codes.
Proof.
  intros _. destruct (generate_huffman_codes_total text) as (codes & root & Hgen & -> & Hdom).
  eexists _, _, _. split_and!; [done..|].
  intros c1 c2 s1 s2 Hne H1 H2. destruct root as [root|].
  - by eapply _get_codes_prefix_free.
  - by rewrite _get_codes_recursive_None, lookup_empty in H1.
Qed.

(** The instance "AB". *)
Lemma codes_prefix_free_AB :
  1 < size (chars "AB") ∧
  ∃ codes frequencies root,
    generate_huffman_codes "AB" = Ok (codes, frequencies, root) ∧
    dom codes = chars "AB" ∧ prefix_free codes.
Proof.
  assert (1 < size (chars "AB")) as Hsize by (vm_compute; lia).
  split; [exact Hsize|exact (codes_prefix_free "AB" Hsize)].
Defined.

(** C4: for every text the keys of the code table are exactly the keys of
    the frequency table, which are the distinct characters of the text, one
    entry each. *)
Theorem code_table_keys (text : string) :
  ∃ codes frequencies root,
    generate_huffman_codes text = Ok (codes, frequencies, root) ∧
    dom codes = list_to_set frequencies.*1 ∧
    NoDup frequencies.*1 ∧
    dom codes = chars text.
Proof.
  destruct (generate_huffman_codes_total text) as (codes & root & Hgen & _ & Hdom).
  exists codes, (Counter text), root.
  split_and!; [done| |apply Counter_NoDup|done].
  by rewrite Counter_keys.
Qed.

(** C5 (as stated, refuted): on the empty text [huffman_utility] returns
    its placeholders before any statistic is derived; no size report with
    originalBits = 0 and savingsPercent = 0 comes back. *)
Lemma empty_input_returns_placeholders :
  huffman_utility "" = Ok Placeholders ∧
  (∀ report, huffman_utility "" ≠ Ok (Sizes report)).
Proof. split; [done|]. intros report. discriminate. Qed.

(** C5 (amended): on the empty text the pipeline returns an empty code
    table, an empty frequency table and no tree, without raising, and
    [huffman_utility] returns its placeholders through the emptiness guard at
    its top, deriving no statistics.  The guard on the percentage yields the
    integer 0 whenever the original size is 0, never dividing; every report
    that [huffman_utility] does derive has a positive original size. *)
Theorem empty_input_pipeline :
  build_huffman_tree "" = Ok (None, []) ∧
  generate_huffman_codes "" = Ok (∅, [], None) ∧
  huffman_utility "" = Ok Placeholders ∧
  (∀ text frequencies codes,
     original_size_bits (size_comparison text frequencies codes) = 0 →
     savings_percent (size_comparison text frequencies codes) = PercentInt 0) ∧
  (∀ text report,
     huffman_utility text = Ok (Sizes report) → 0 < original_size_bits report).
Proof.
  split_and!; [done..| |].
  - intros text frequencies codes. cbn [size_comparison original_size_bits savings_percent].
    intros ->. done.
  - intros [|a text] report; [done|]. unfold huffman_utility.
    destruct (generate_huffman_codes _) as [[[codes frequencies] root]| |]; try done.
    rewrite bind_Ok. intros [= <-]. cbn [size_comparison original_size_bits].
    simpl. lia.
Qed.

(** The guard at original size 0, and a derived report on "A". *)
Lemma empty_input_pipeline_guard :
  savings_percent (size_comparison "" [] ∅) = PercentInt 0 ∧
  0 < original_size_bits (size_comparison "A" [("A"%char, 1)] {["A"%char := "0"]}).
Proof.
  destruct empty_input_pipeline as (_ & _ & _ & Hguard & Hpos). split.
  - apply Hguard. reflexivity.
  - apply (Hpos "A"). vm_compute. reflexivity.
Defined.

(** C6: for every text, concatenating the code of each character of the
    text gives a bit string whose length is the compressed size, the sum
    over the frequency table of frequency times code length. *)
Theorem reencoding_length (text : string) :
  ∃ codes frequencies root bits,
    generate_huffman_codes text = Ok (codes, frequencies, root) ∧
    encode codes text = Some bits ∧
    String.length bits = compressed_size frequencies codes ∧
    compressed_size frequencies codes = weighted_length codes frequencies ∧
    compressed_size_bits (size_comparison text frequencies codes)
    = String.length bits.
Proof.
  destruct (generate_huffman_codes_total text) as (codes & root & Hgen & _ & Hdom).
  destruct (encode_length codes text) as (bits & Hbits & Hlen); [by rewrite Hdom|].
  exists codes, (Counter text), root, bits.
  rewrite compressed_size_Counter in *.
  split_and!; [done..| |].
  - by rewrite <-compressed_size_weighted, compressed_size_Counter.
  - cbn [size_comparison compressed_size_bits]. by rewrite compressed_size_Counter.
Qed.

(** C7: on "AAAAABBBCC" (A:5, B:3, C:2) the codes are A = "0", B = "11",
    C = "10", so their lengths are ordered A ≤ B ≤ C, and the compressed
    size, 15 bits, is below the original 80 bits. *)
Theorem known_example :
  ∃ codes root report,
    generate_huffman_codes "AAAAABBBCC"
    = Ok (codes, [("A"%char, 5); ("B"%char, 3); ("C"%char, 2)], Some root) ∧
    root = merged (leaf "A" 5) (merged (leaf "C" 2) (leaf "B" 3)) ∧
    codes = {["A"%char := "0"; "B"%char := "11"; "C"%char := "10"]} ∧
    String.length (codes_get codes "A") ≤ String.length (codes_get codes "B") ∧
    String.length (codes_get codes "B") ≤ String.length (codes_get codes "C") ∧
    huffman_utility "AAAAABBBCC" = Ok (Sizes report) ∧
    original_size_bits report = 80 ∧
    compressed_size_bits report = 15 ∧
    compressed_size_bits report < original_size_bits report.
Proof.
  eexists _, _, _. split; [vm_compute; reflexivity|].
  split_and!; try (vm_compute; reflexivity); vm_compute; lia.
Qed.

(** Equal weights: on "AB" both leaves weigh 1 and A, pushed first, is
    popped first. *)
Lemma tie_break_AB :
  generate_huffman_codes "AB"
  = Ok ({["A"%char := "0"; "B"%char := "1"]}, [("A"%char, 1); ("B"%char, 1)],
        Some (merged (leaf "A" 1) (leaf "B" 1))).
Proof. vm_compute. reflexivity. Qed.

(** C9: in every iteration of the merge loop the two pops succeed, the
    first popped node is a lightest node of the queue and the second a
    lightest of the rest, and the node pushed back has no character, the
    first popped node as its left child, the second as its right child, and
    the sum of their weights, whatever the two nodes contain. *)
Theorem merge_step_child_order (text : string) (priority_queue : list Node) :
  loop_state text priority_queue → 1 < length priority_queue →
  ∃ first pq1 second pq2 parent_node pq',
    heappop priority_queue = Ok (first, pq1) ∧
    heappop pq1 = Ok (second, pq2) ∧
    (∀ x, x ∈ priority_queue → freq first ≤ freq x) ∧
    (∀ x, x ∈ pq1 → freq second ≤ freq x) ∧
    parent_node = mkNode None (freq first + freq second) (Some first) (Some second) ∧
    heappush pq2 parent_node = Ok pq' ∧
    merge_step priority_queue = Ok pq' ∧
    loop_state text pq'.
Proof.
  intros Hstate Hlen. pose proof (loop_state_ordered _ _ Hstate) as Hord.
  destruct (heappop_items priority_queue) as (first & pq1 & Hpop1 & Hperm1);
    [intros ->; simpl in *; lia|].
  destruct (heappop_ordered _ _ _ Hord Hpop1) as [Hord1 Hmin1].
  destruct (heappop_items pq1) as (second & pq2 & Hpop2 & Hperm2).
  { intros ->. rewrite <-Hperm1 in Hlen. simpl in *. lia. }
  destruct (heappop_ordered _ _ _ Hord1 Hpop2) as [Hord2 Hmin2].
  destruct (heappush_items pq2 (merged first second)) as (pq' & Hpush & _).
  assert (merge_step priority_queue = Ok pq') as Hstep
    by (unfold merge_step; by rewrite Hpop1, bind_Ok, Hpop2, bind_Ok).
  exists first, pq1, second, pq2, (merged first second), pq'.
  split_and!; [done..|]. by eapply loop_iteration.
Qed.

(** The first iteration on "AAB": B (weight 1) is popped before A (weight 2). *)
Lemma merge_step_child_order_AAB :
  loop_state "AAB" [leaf "B" 1; leaf "A" 2] ∧
  ∃ first pq1 second pq2 parent_node pq',
    heappop [leaf "B" 1; leaf "A" 2] = Ok (first, pq1) ∧
    heappop pq1 = Ok (second, pq2) ∧
    (∀ x, x ∈ [leaf "B" 1; leaf "A" 2] → freq first ≤ freq x) ∧
    (∀ x, x ∈ pq1 → freq second ≤ freq x) ∧
    parent_node = mkNode None (freq first + freq second) (Some first) (Some second) ∧
    heappush pq2 parent_node = Ok pq' ∧
    merge_step [leaf "B" 1; leaf "A" 2] = Ok pq' ∧
    loop_state "AAB" pq'.
Proof.
  assert (loop_state "AAB" [leaf "B" 1; leaf "A" 2]) as Hstate
    by (by apply (loop_entry "AAB" [leaf "B" 1; leaf "A" 2])).
  split; [exact Hstate|].
  apply (merge_step_child_order "AAB" _ Hstate). simpl. lia.
Defined.

(** C10: the traversal returns on every tree: an absent child leaves the
    dict as it is, the single-symbol wrapper, whose right child is absent,
    yields the one entry of its leaf, and the pipeline returns a code table
    for every text. *)
Theorem traversal_total :
  (∀ current_code codes, _get_codes_recursive None current_code codes = codes) ∧
  (∀ c f, right (wrapper (leaf c f)) = None ∧
          _get_codes_recursive (Some (wrapper (leaf c f))) "" ∅ = {[c := "0"]}) ∧
  (∀ node current_code codes,
     dom (_get_codes_recursive node current_code codes)
     = list_to_set (from_option symbols [] node) ∪ dom codes) ∧
  (∀ text, ∃ codes root,
     generate_huffman_codes text = Ok (codes, Counter text, root) ∧
     codes = _get_codes_recursive root "" ∅).
Proof.
  split_and!.
  - done.
  - intros c f. split; [done|]. unfold wrapper, leaf.
    rewrite _get_codes_recursive_internal, _get_codes_recursive_leaf.
    by rewrite _get_codes_recursive_None, insert_empty.
  - intros node. apply _get_codes_recursive_dom.
  - intros text.
    destruct (generate_huffman_codes_total text) as (codes & root & Hgen & Hcodes & _).
    by exists codes, root.
Qed.

(** * Further properties of the tree, the codes and the sizes *)

(** ** Any invariant of the forest reaches the root *)

Lemma build_huffman_tree_forest (text : string) (P : list Node → Prop) :
  1 < length (Counter text) →
  (∀ pq pq', pq ≡ₚ pq' → P pq → P pq') →
  (∀ l r rest, P (l :: r :: rest) → P (merged l r :: rest)) →
  P (map (λ '(c, f), leaf c f) (Counter text)) →
  ∃ root, build_huffman_tree text = Ok (Some root, Counter text) ∧ P [root].
Proof.
  intros Hlen Hperm Hmerge Hinit. destruct text as [|a text]; [simpl in Hlen; lia|].
  unfold build_huffman_tree. set (frequencies := Counter (String a text)) in *.
  destruct (push_leaves_items frequencies []) as (pq & -> & Hpq).
  rewrite bind_Ok, app_nil_r in *.
  assert (length pq = length frequencies) as Hpqlen
    by (by rewrite Hpq, length_map).
  unfold wrap_single. rewrite decide_False, bind_Ok by lia.
  destruct (merge_while_invariant P Hperm Hmerge (length pq) pq)
    as (root & -> & Hroot); [lia|intros ->; simpl in *; lia| |].
  - by apply (Hperm (map (λ '(c, f), leaf c f) frequencies)).
  - rewrite bind_Ok, heappop_singleton, bind_Ok. by exists root.
Qed.

Lemma Counter_cases (text : string) :
  text = ""%string ∨
  (∃ c, chars text = {[c]} ∧ Counter text = [(c, String.length text)]) ∨
  1 < length (Counter text).
Proof.
  destruct (decide (text = ""%string)) as [|Hne]; [by left|right].
  destruct (Counter text) as [|[c n] [|e d]] eqn:Hcount.
  - destruct text as [|a text]; [done|].
    pose proof (Counter_length (String a text)) as Hlen.
    rewrite Hcount in Hlen. simpl in Hlen. symmetry in Hlen.
    apply size_empty_iff in Hlen. set_solver.
  - left. exists c. assert (chars text = {[c]}) as Hc.
    { rewrite <-Counter_keys, Hcount. simpl. set_solver. }
    split; [done|]. by rewrite <-Hcount, (Counter_single c text Hc).
  - right. simpl. lia.
Qed.

(** ** The frequency table counts occurrences *)

Lemma Counter_incr_lookup (c : ascii) (d : list (ascii * nat)) :
  (list_to_map (Counter_incr c d) : gmap ascii nat)
  = <[c := S (default 0 ((list_to_map d : gmap ascii nat) !! c))]> (list_to_map d).
Proof.
  induction d as [|[k n] d IH]; [done|]. cbn [Counter_incr].
  destruct (decide (k = c)) as [->|Hne]; cbn [list_to_map foldr uncurry].
  - rewrite lookup_insert_eq. simpl. by rewrite insert_insert_eq.
  - rewrite IH, lookup_insert_ne by done. by rewrite insert_insert_ne.
Qed.

Lemma Counter_update_lookup (text : string) :
  ∀ (d : list (ascii * nat)) (c : ascii),
    default 0 ((list_to_map (Counter_update text d) : gmap ascii nat) !! c)
    = occurrences c text + default 0 ((list_to_map d : gmap ascii nat) !! c).
Proof.
  induction text as [|a text IH]; intros d c; [done|]. cbn [Counter_update occurrences].
  rewrite IH, Counter_incr_lookup. destruct (decide (a = c)) as [->|Hne].
  - rewrite lookup_insert_eq. simpl. lia.
  - by rewrite lookup_insert_ne.
Qed.

Lemma Counter_update_positive (text : string) :
  ∀ d : list (ascii * nat),
    Forall (λ e, 0 < e.2) d → Forall (λ e, 0 < e.2) (Counter_update text d).
Proof.
  induction text as [|a text IH]; intros d Hd; [done|]. apply IH. clear IH.
  induction Hd as [|[k n] d Hn Hd IHd]; cbn [Counter_incr].
  - repeat constructor.
  - destruct (decide (k = a)); constructor; simpl in *; (lia || done).
Qed.

Lemma Counter_occurrences (text : string) (c : ascii) (n : nat) :
  (c, n) ∈ Counter text ↔ n = occurrences c text ∧ 0 < n.
Proof.
  pose proof (Counter_update_lookup text [] c) as Hlook.
  pose proof (Counter_update_positive text [] (Forall_nil_2 _)) as Hpos.
  fold (Counter text) in Hlook, Hpos.
  cbn [list_to_map foldr] in Hlook. rewrite lookup_empty in Hlook.
  cbn [default from_option] in Hlook. rewrite Nat.add_0_r in Hlook. split.
  - intros Hin. rewrite Forall_forall in Hpos. split; [|by apply (Hpos _ Hin)].
    apply (elem_of_list_to_map_1 (M := gmap ascii)) in Hin; [|apply Counter_NoDup].
    by rewrite Hin in Hlook.
  - intros [-> Hn].
    apply (elem_of_list_to_map_2 (M := gmap ascii) (Counter text)).
    destruct (_ !! c) as [m|]; simpl in Hlook; [by subst|lia].
Qed.

Lemma Counter_incr_total (c : ascii) (d : list (ascii * nat)) :
  sum_list_with snd (Counter_incr c d) = S (sum_list_with snd d).
Proof.
  induction d as [|[k n] d IH]; [done|]. cbn [Counter_incr].
  destruct (decide (k = c)); simpl; [done|]. rewrite IH. lia.
Qed.

Lemma Counter_total (text : string) :
  sum_list_with snd (Counter text) = String.length text.
Proof.
  unfold Counter.
  enough (∀ d, sum_list_with snd (Counter_update text d)
               = String.length text + sum_list_with snd d)
    as H by (rewrite H; simpl; lia).
  induction text as [|a text IH]; intros d; [done|]. cbn [Counter_update].
  rewrite IH, Counter_incr_total. simpl. lia.
Qed.

(** ** The traversal records the leaves *)

Lemma leaves_entries (n : Node) :
  ∀ current_code, (leaves n current_code).*1 = leaf_entries n.
Proof.
  induction n as [[c|] f l r IHl IHr] using Node_children_ind; intros cc; [done|].
  cbn [leaves leaf_entries]. rewrite fmap_app.
  destruct l as [l|], r as [r|]; simpl in IHl, IHr; csimpl;
    by rewrite ?IHl, ?IHr.
Qed.

Lemma leaf_entries_symbols (n : Node) : (leaf_entries n).*1 = symbols n.
Proof.
  induction n as [[c|] f l r IHl IHr] using Node_children_ind; [done|].
  cbn [symbols leaf_entries]. rewrite fmap_app.
  destruct l as [l|], r as [r|]; simpl in IHl, IHr; csimpl;
    by rewrite ?IHl, ?IHr.
Qed.

Lemma _get_codes_recursive_leaves (n : Node) :
  ∀ current_code codes,
    _get_codes_recursive (Some n) current_code codes
    = foldl (λ m e, <[e.1.1 := e.2]> m) codes (leaves n current_code).
Proof.
  induction n as [[c|] f l r IHl IHr] using Node_children_ind; intros cc codes.
  - by rewrite _get_codes_recursive_leaf.
  - rewrite _get_codes_recursive_internal. cbn [leaves]. rewrite foldl_app.
    destruct l as [l|], r as [r|]; cbn [from_option] in IHl, IHr;
      rewrite ?IHr, ?IHl, ?_get_codes_recursive_None; reflexivity.
Qed.

Lemma foldl_insert_other (l : list (ascii * nat * string)) :
  ∀ (codes : gmap ascii string) (c : ascii),
    c ∉ l.*1.*1 → foldl (λ m e, <[e.1.1 := e.2]> m) codes l !! c = codes !! c.
Proof.
  induction l as [|[[k f] s] l IH]; intros codes c Hc; [done|]. csimpl in *.
  rewrite IH by set_solver. apply lookup_insert_ne. set_solver.
Qed.

Lemma foldl_insert_lookup (l : list (ascii * nat * string)) :
  ∀ (codes : gmap ascii string) (c : ascii) (f : nat) (s : string),
    NoDup l.*1.*1 → (c, f, s) ∈ l →
    foldl (λ m e, <[e.1.1 := e.2]> m) codes l !! c = Some s.
Proof.
  induction l as [|[[k g] t] l IH]; intros codes c f s Hnd Hin;
    [by apply elem_of_nil in Hin|].
  csimpl in *. apply NoDup_cons in Hnd as [Hk Hnd].
  apply elem_of_cons in Hin as [[= -> -> ->]|Hin].
  - rewrite foldl_insert_other by done. apply lookup_insert_eq.
  - by eapply IH.
Qed.

(** With distinct characters, every leaf finds its own code in the table. *)
Lemma leaves_lookup (root : Node) (c : ascii) (f : nat) (s : string) :
  NoDup (symbols root) → (c, f, s) ∈ leaves root "" →
  _get_codes_recursive (Some root) "" ∅ !! c = Some s.
Proof.
  intros Hnd Hin. rewrite _get_codes_recursive_leaves.
  eapply foldl_insert_lookup; [|done].
  by rewrite leaves_entries, leaf_entries_symbols.
Qed.

(** ** Depths and code lengths *)

Lemma leaves_weighted (n : Node) :
  ∀ current_code,
    current_code ≠ ""%string →
    sum_list_with (λ e, String.length e.2 * e.1.2) (leaves n current_code)
    = weighted_path_length n (String.length current_code).
Proof.
  induction n as [[c|] f l r IHl IHr] using Node_children_ind; intros cc Hcc.
  - destruct cc; [done|]. simpl. lia.
  - cbn [leaves weighted_path_length]. rewrite sum_list_with_app.
    assert (∀ a, cc +:+ String a "" ≠ ""%string) as Hne by (by destruct cc).
    assert (∀ a, String.length (cc +:+ String a "") = S (String.length cc)) as Hlen
      by (intros a; rewrite append_length; simpl; lia).
    destruct l as [l|], r as [r|]; simpl in IHl, IHr; csimpl;
      rewrite ?IHl, ?IHr, ?Hlen by done; done.
Qed.

Lemma leaves_weighted_root (f : nat) (l r : option Node) :
  sum_list_with (λ e, String.length e.2 * e.1.2) (leaves (mkNode None f l r) "")
  = weighted_path_length (mkNode None f l r) 0.
Proof.
  cbn [leaves weighted_path_length]. rewrite sum_list_with_app.
  destruct l as [l|], r as [r|]; csimpl;
    rewrite ?(leaves_weighted _ "0"), ?(leaves_weighted _ "1") by done; done.
Qed.

Lemma weighted_length_Permutation (codes : gmap ascii string)
    (d d' : list (ascii * nat)) :
  d ≡ₚ d' → weighted_length codes d = weighted_length codes d'.
Proof.
  induction 1 as [|[c f] d d' _ IH|[c f] [c' f'] d|d d' d'' _ IH1 _ IH2];
    simpl; lia.
Qed.

Lemma weighted_length_recorded (codes : gmap ascii string)
    (l : list (ascii * nat * string)) :
  (∀ c f s, (c, f, s) ∈ l → codes !! c = Some s) →
  weighted_length codes l.*1 = sum_list_with (λ e, String.length e.2 * e.1.2) l.
Proof.
  induction l as [|[[c f] s] l IH]; intros Hlook; [done|].
  rewrite fmap_cons. cbn [weighted_length sum_list_with fst snd].
  unfold codes_get at 1. rewrite (Hlook c f s) by left.
  rewrite IH; [done|]. intros c' f' s' Hin. apply (Hlook c' f' s'). by right.
Qed.

(** The table's own sum equals the sum over the recorded leaves. *)
Lemma weighted_length_leaves (root : Node) :
  NoDup (symbols root) →
  weighted_length (_get_codes_recursive (Some root) "" ∅) (leaf_entries root)
  = sum_list_with (λ e, String.length e.2 * e.1.2) (leaves root "").
Proof.
  intros Hnd. rewrite <-(leaves_entries root "").
  apply weighted_length_recorded. intros c f s. by apply leaves_lookup.
Qed.

(** ** Paths and codes *)

Lemma leaf_path_bits (n : Node) (p : string) (c : ascii) :
  leaf_path n p c → bits_only p.
Proof. induction 1; simpl; auto. Qed.

Lemma symbols_nonempty (n : Node) : strictly_binary n → 0 < length (symbols n).
Proof.
  induction n as [[c|] f l r IHl IHr] using Node_children_ind; simpl; [lia|].
  destruct l as [l|], r as [r|]; try done. simpl in IHl.
  intros (_ & Hl & _). rewrite length_app. specialize (IHl Hl). lia.
Qed.

(** A path is shorter than the number of leaves. *)
Lemma leaf_path_length (n : Node) (p : string) (c : ascii) :
  leaf_path n p c → strictly_binary n → String.length p < length (symbols n).
Proof.
  induction 1 as [c f l r|f l r p c H1 IH|f l r p c H1 IH]; simpl.
  - lia.
  - destruct r as [r|]; [|done]. intros (_ & Hl & Hr). rewrite length_app.
    specialize (IH Hl). pose proof (symbols_nonempty r Hr). lia.
  - destruct l as [l|]; [|done]. intros (_ & Hl & Hr). rewrite length_app.
    specialize (IH Hr). pose proof (symbols_nonempty l Hl). lia.
Qed.

Lemma leaf_path_internal (f : nat) (l r : option Node) (p : string) (c : ascii) :
  leaf_path (mkNode None f l r) p c → recorded p = p ∧ p ≠ ""%string.
Proof. inversion 1; by subst. Qed.

(** ** What build_huffman_tree returns *)

Lemma forest_entries_leaves (items : list (ascii * nat)) :
  map (λ '(c, f), leaf c f) items ≫= leaf_entries = items.
Proof.
  induction items as [|[c f] items IH]; [done|]. csimpl. by rewrite IH.
Qed.

Lemma forest_weight_leaves (items : list (ascii * nat)) :
  forest_weight (map (λ '(c, f), leaf c f) items) = sum_list_with snd items.
Proof.
  unfold forest_weight. induction items as [|[c f] items IH]; [done|].
  simpl. by rewrite IH.
Qed.

(** The returned tree, for every non-empty text: a root without a
    character whose leaves are the entries of the frequency table and whose
    weight is the length of the text; strictly binary unless the text has a
    single distinct character. *)
Lemma build_huffman_tree_root (text : string) :
  text ≠ ""%string →
  ∃ root,
    build_huffman_tree text = Ok (Some root, Counter text) ∧
    char root = None ∧
    leaf_entries root ≡ₚ Counter text ∧
    freq root = String.length text ∧
    (strictly_binary root ∨
     ∃ c, root = wrapper (leaf c (String.length text))).
Proof.
  intros Hne. destruct (Counter_cases text) as [?|[(c & Hc & Hcount)|Hlen]]; [done| |].
  - exists (wrapper (leaf c (String.length text))). rewrite Hcount.
    split_and!; [|done..|right; by exists c].
    by apply build_huffman_tree_single.
  - destruct (build_huffman_tree_forest text
      (λ pq, Forall (λ n, strictly_binary n ∧ (char n = None ∨ left n = None)) pq ∧
             pq ≫= leaf_entries ≡ₚ Counter text ∧
             forest_weight pq = String.length text) Hlen)
      as (root & Hb & Hsb & Hleaves & Hweight).
    + intros pq pq' Hperm (? & ? & ?). unfold forest_weight in *.
      by rewrite <-Hperm.
    + intros l r rest (Hsb & Hleaves & Hweight).
      apply Forall_cons in Hsb as [[Hl _] Hsb].
      apply Forall_cons in Hsb as [[Hr _] Hsb]. split_and!.
      * constructor; [|done]. split; [by simpl|by left].
      * rewrite <-Hleaves. csimpl. by rewrite (assoc (++)).
      * rewrite <-Hweight. unfold forest_weight. simpl. lia.
    + split_and!.
      * clear. induction (Counter text) as [|[c f] d IH]; [constructor|].
        constructor; [|done]. split; [done|by right].
      * by rewrite forest_entries_leaves.
      * by rewrite forest_weight_leaves, Counter_total.
    + exists root. apply Forall_cons in Hsb as [[Hsb Hchar] _].
      csimpl in Hleaves. rewrite app_nil_r in Hleaves.
      unfold forest_weight in Hweight. simpl in Hweight.
      split_and!; [done| |done|lia|by left].
      destruct Hchar as [?|Hleft]; [done|].
      destruct root as [[c|] f [l|] r]; simpl in *; try done.
      (* a strictly binary leaf root would be the only entry of the table *)
      destruct Hsb as [_ ->]. simpl in Hleaves.
      apply Permutation_length in Hleaves. simpl in *. lia.
Qed.

Lemma recorded_nonempty (s : string) : recorded s ≠ ""%string.
Proof. by destruct s. Qed.

(** The pipeline on a non-empty text, with what is known of its tree. *)
Lemma generate_huffman_codes_root (text : string) :
  text ≠ ""%string →
  ∃ root,
    generate_huffman_codes text
    = Ok (_get_codes_recursive (Some root) "" ∅, Counter text, Some root) ∧
    char root = None ∧
    NoDup (symbols root) ∧
    leaf_entries root ≡ₚ Counter text ∧
    (strictly_binary root ∨ ∃ c, root = wrapper (leaf c (String.length text))).
Proof.
  intros Hne.
  destruct (build_huffman_tree_root text Hne) as (root & Hb & Hchar & Hleaves & _ & Hshape).
  exists root. split_and!; [by apply generate_huffman_codes_built|done| |done..].
  rewrite <-leaf_entries_symbols, Hleaves. apply Counter_NoDup.
Qed.

Lemma code_length_sum_lower (codes : gmap ascii string) (text : string) :
  (∀ c, c ∈ chars text → codes_get codes c ≠ ""%string) →
  String.length text ≤ code_length_sum codes text.
Proof.
  induction text as [|a text IH]; intros Hcodes; simpl; [lia|].
  assert (codes_get codes a ≠ ""%string) as Ha by (apply Hcodes; set_solver).
  assert (String.length text ≤ code_length_sum codes text)
    by (apply IH; intros c Hc; apply Hcodes; set_solver).
  destruct (codes_get codes a); [done|]. simpl. lia.
Qed.

(** * Further properties, stated *)

(** X1: the frequency table that [build_huffman_tree] returns has one
    entry per distinct character of the text, the entry of a character is its
    number of occurrences, which is positive, and the counts add up to the
    length of the text. *)
Theorem frequency_table_counts (text : string) :
  ∃ root frequencies,
    build_huffman_tree text = Ok (root, frequencies) ∧
    NoDup frequencies.*1 ∧
    (∀ c n, (c, n) ∈ frequencies ↔ n = occurrences c text ∧ 0 < n) ∧
    sum_list_with snd frequencies = String.length text.
Proof.
  destruct (decide (text = ""%string)) as [->|Hne].
  - exists None, []. split_and!; [done|constructor| |done].
    intros c n. split; [by intros ?%elem_of_nil|simpl; lia].
  - destruct (build_huffman_tree_root text Hne) as (root & Hb & _).
    exists (Some root), (Counter text).
    split_and!; [done|apply Counter_NoDup| |apply Counter_total].
    intros c n. apply Counter_occurrences.
Qed.

(** X2: the leaves of the returned tree are exactly the entries of the
    frequency table: every distinct character is the character of exactly one
    leaf, whose weight is the character's count. *)
Theorem tree_leaves_are_frequency_table (text : string) :
  ∃ root frequencies,
    build_huffman_tree text = Ok (root, frequencies) ∧
    from_option leaf_entries [] root ≡ₚ frequencies ∧
    NoDup (from_option symbols [] root).
Proof.
  destruct (decide (text = ""%string)) as [->|Hne].
  - exists None, []. split_and!; [done..|constructor].
  - destruct (build_huffman_tree_root text Hne) as (root & Hb & _ & Hleaves & _).
    exists (Some root), (Counter text). split_and!; [done..|]. simpl.
    rewrite <-leaf_entries_symbols, Hleaves. apply Counter_NoDup.
Qed.

(** X3: the weight of the root of the returned tree is the length of the
    text. *)
Theorem root_weight_is_text_length (text : string) :
  ∃ root frequencies,
    build_huffman_tree text = Ok (root, frequencies) ∧
    from_option freq 0 root = String.length text.
Proof.
  destruct (decide (text = ""%string)) as [->|Hne]; [by exists None, []|].
  destruct (build_huffman_tree_root text Hne) as (root & Hb & _ & _ & Hweight & _).
  by exists (Some root), (Counter text).
Qed.

(** X4: the compressed size that [huffman_utility] adds up from the
    frequency table and the code table is the weighted path length of the
    tree: the sum over the leaves of depth times weight. *)
Theorem compressed_size_is_weighted_path_length (text : string) :
  ∃ codes frequencies root,
    generate_huffman_codes text = Ok (codes, frequencies, root) ∧
    compressed_size frequencies codes
    = from_option (λ n, weighted_path_length n 0) 0 root.
Proof.
  destruct (decide (text = ""%string)) as [->|Hne]; [by exists ∅, [], None|].
  destruct (generate_huffman_codes_root text Hne)
    as (root & Hgen & Hchar & Hnd & Hleaves & _).
  eexists _, _, _. split; [exact Hgen|].
  rewrite compressed_size_weighted.
  rewrite <-(weighted_length_Permutation _ _ _ Hleaves).
  rewrite weighted_length_leaves by done.
  destruct root as [[c|] f l r]; [done|]. apply leaves_weighted_root.
Qed.

(** X5: every code of the table is the path from the root to the leaf of
    its character ('0' to the left child, '1' to the right child); it is not
    empty and holds no character other than '0' and '1'. *)
Theorem codes_are_leaf_paths (text : string) :
  ∃ codes frequencies root,
    generate_huffman_codes text = Ok (codes, frequencies, root) ∧
    ∀ c s, codes !! c = Some s →
           s ≠ ""%string ∧ bits_only s ∧
           ∃ n, root = Some n ∧ leaf_path n s c.
Proof.
  destruct (decide (text = ""%string)) as [->|Hne].
  - exists ∅, [], None. split; [done|]. intros c s Hs.
    by rewrite lookup_empty in Hs.
  - destruct (generate_huffman_codes_root text Hne) as (root & Hgen & Hchar & _).
    eexists _, _, _. split; [exact Hgen|]. intros c s Hs.
    apply _get_codes_recursive_lookup in Hs as [Hs|(n & p & [= <-] & Hp & ->)];
      [by rewrite lookup_empty in Hs|].
    change (""%string +:+ p) with p.
    destruct root as [[c0|] f l r]; [done|].
    destruct (leaf_path_internal _ _ _ _ _ Hp) as [-> Hne'].
    split_and!; [done|by eapply leaf_path_bits|by eexists].
Qed.

(** X6: every character costs at least one bit: the compressed size is at
    least the length of the text. *)
Theorem compressed_size_at_least_length (text : string) :
  ∃ codes frequencies root,
    generate_huffman_codes text = Ok (codes, frequencies, root) ∧
    String.length text ≤ compressed_size frequencies codes.
Proof.
  destruct (generate_huffman_codes_total text) as (codes & root & Hgen & Hcodes & Hdom).
  exists codes, (Counter text), root. split; [done|].
  rewrite compressed_size_Counter. apply code_length_sum_lower.
  intros c Hc. rewrite <-Hdom in Hc. apply elem_of_dom in Hc as [s Hs].
  unfold codes_get. rewrite Hs. simpl. subst codes.
  apply _get_codes_recursive_lookup in Hs as [Hs|(n & p & _ & _ & ->)];
    [by rewrite lookup_empty in Hs|apply recorded_nonempty].
Qed.

(** X7: with k distinct characters, k at least 2, no code is longer than
    k - 1 bits; with one distinct character the code has one bit. *)
Theorem code_length_bound (text : string) :
  ∃ codes frequencies root,
    generate_huffman_codes text = Ok (codes, frequencies, root) ∧
    ∀ c s, codes !! c = Some s →
           1 ≤ String.length s ≤ Nat.max 1 (length frequencies - 1).
Proof.
  destruct (decide (text = ""%string)) as [->|Hne].
  - exists ∅, [], None. split; [done|]. intros c s Hs.
    by rewrite lookup_empty in Hs.
  - destruct (generate_huffman_codes_root text Hne)
      as (root & Hgen & Hchar & _ & Hleaves & Hshape).
    eexists _, _, _. split; [exact Hgen|]. intros c s Hs.
    apply _get_codes_recursive_lookup in Hs as [Hs|(n & p & [= <-] & Hp & ->)];
      [by rewrite lookup_empty in Hs|].
    change (""%string +:+ p) with p.
    assert (length (symbols root) = length (Counter text)) as Hlen
      by (by rewrite <-leaf_entries_symbols, length_fmap, Hleaves).
    destruct Hshape as [Hsb|[c0 ->]].
    + pose proof (leaf_path_length _ _ _ Hp Hsb) as Hp'.
      destruct root as [[c0|] f l r]; [done|].
      destruct (leaf_path_internal _ _ _ _ _ Hp) as [-> Hne'].
      split; [by destruct p; simpl; [|lia]|lia].
    + inversion Hp as [| ? ? ? ? ? Hp' |]; subst. inversion Hp'; subst.
      simpl. lia.
Qed.

(** ** The rows of the data frame *)

Lemma insert_by_count_Permutation (item : ascii * nat) (l : list (ascii * nat)) :
  insert_by_count item l ≡ₚ item :: l.
Proof.
  induction l as [|x l IH]; [done|]. cbn [insert_by_count].
  destruct (decide _); [|done]. by rewrite IH, Permutation_swap.
Qed.

Lemma sorted_by_count_Permutation (l : list (ascii * nat)) : sorted_by_count l ≡ₚ l.
Proof.
  induction l as [|x l IH]; [done|]. unfold sorted_by_count in *. cbn [foldr].
  by rewrite insert_by_count_Permutation, IH.
Qed.

Lemma insert_by_count_sorted (item : ascii * nat) (l : list (ascii * nat)) :
  StronglySorted (λ x y, y.2 ≤ x.2) l →
  StronglySorted (λ x y, y.2 ≤ x.2) (insert_by_count item l).
Proof.
  induction l as [|x l IH]; intros Hl; cbn [insert_by_count];
    [by repeat constructor|].
  apply StronglySorted_inv in Hl as [Hl Hx].
  destruct (decide (item.2 < x.2)) as [Hlt|Hge].
  - constructor; [by apply IH|].
    rewrite insert_by_count_Permutation. constructor; [lia|done].
  - constructor; [by constructor|]. constructor; [lia|].
    eapply Forall_impl; [exact Hx|]. simpl. lia.
Qed.

Lemma sorted_by_count_sorted (l : list (ascii * nat)) :
  StronglySorted (λ x y, y.2 ≤ x.2) (sorted_by_count l).
Proof.
  induction l as [|x l IH]; [constructor|]. by apply insert_by_count_sorted.
Qed.

Lemma insert_by_count_filter (k : nat) (item : ascii * nat) (l : list (ascii * nat)) :
  filter (λ x, x.2 = k) (insert_by_count item l)
  = filter (λ x, x.2 = k) (item :: l).
Proof.
  induction l as [|x l IH]; [done|]. cbn [insert_by_count].
  destruct (decide (item.2 < x.2)) as [Hlt|Hge]; [|done].
  rewrite filter_cons, IH, !filter_cons.
  destruct (decide (x.2 = k)), (decide (item.2 = k)); try done. lia.
Qed.

Lemma sorted_by_count_filter (k : nat) (l : list (ascii * nat)) :
  filter (λ x, x.2 = k) (sorted_by_count l) = filter (λ x, x.2 = k) l.
Proof.
  induction l as [|x l IH]; [done|]. unfold sorted_by_count in *. cbn [foldr].
  by rewrite insert_by_count_filter, !filter_cons, IH.
Qed.

Lemma dataframe_data_entries (frequencies : list (ascii * nat))
    (codes : gmap ascii string) :
  (dataframe_data frequencies codes).*1 = sorted_by_count frequencies.
Proof.
  unfold dataframe_data. induction (sorted_by_count frequencies) as [|[c f] l IH];
    [done|]. csimpl. by rewrite IH.
Qed.

(** X8: the rows of the data frame list the entries of the frequency
    table, each once, by descending count; entries with the same count keep
    the order of the frequency table (the order of first occurrence). *)
Theorem dataframe_rows_sorted (text : string) :
  ∃ codes frequencies root,
    generate_huffman_codes text = Ok (codes, frequencies, root) ∧
    (dataframe_data frequencies codes).*1 ≡ₚ frequencies ∧
    StronglySorted (λ x y, y.2 ≤ x.2) (dataframe_data frequencies codes).*1 ∧
    ∀ k, filter (λ x, x.2 = k) (dataframe_data frequencies codes).*1
         = filter (λ x, x.2 = k) frequencies.
Proof.
  destruct (generate_huffman_codes_total text) as (codes & root & Hgen & _).
  exists codes, (Counter text), root. rewrite dataframe_data_entries.
  split_and!; [done|apply sorted_by_count_Permutation|apply sorted_by_count_sorted|].
  intros k. apply sorted_by_count_filter.
Qed.

(** X9: the third column of every row is the code of the row's character
    in the code table; the default "N/A" is never used. *)
Theorem dataframe_rows_have_codes (text : string) :
  ∃ codes frequencies root,
    generate_huffman_codes text = Ok (codes, frequencies, root) ∧
    ∀ c f s, (c, f, s) ∈ dataframe_data frequencies codes →
             codes !! c = Some s ∧ s ≠ "N/A"%string.
Proof.
  destruct (generate_huffman_codes_total text) as (codes & root & Hgen & Hcodes & Hdom).
  exists codes, (Counter text), root. split; [done|]. intros c f s Hin.
  unfold dataframe_data in Hin.
  apply list_elem_of_fmap in Hin as ([c' f'] & [= <- <- ->] & Hin).
  rewrite sorted_by_count_Permutation in Hin.
  assert (c ∈ dom codes) as [s Hs]%elem_of_dom.
  { rewrite Hdom, <-Counter_keys. apply elem_of_list_to_set.
    apply list_elem_of_fmap. by exists (c, f). }
  rewrite Hs. simpl. split; [done|]. subst codes.
  apply _get_codes_recursive_lookup in Hs as [Hs|(n & p & _ & Hp & ->)];
    [by rewrite lookup_empty in Hs|].
  change (""%string +:+ p) with p. apply leaf_path_bits in Hp.
  destruct p as [|a p]; [done|]. simpl in *. intros [= -> _]. by destruct Hp as [[?|?] _].
Qed.

(** ** visualize_tree *)

Lemma add_nodes_edges_app (n : Node) :
  ∀ id counter dot,
    add_nodes_edges n id counter dot
    = ((add_nodes_edges n id counter []).1, dot ++ (add_nodes_edges n id counter []).2).
Proof.
  induction n as [ch f l r IHl IHr] using Node_children_ind; intros id counter dot.
  cbn [add_nodes_edges].
  destruct l as [ln|]; cbn [from_option] in IHl.
  - destruct (child_id ln counter) as [c0 lid].
    rewrite (IHl lid c0 (dot ++ _)), (IHl lid c0 ([] ++ _)).
    destruct (add_nodes_edges ln lid c0 []) as [c1 callsl]. cbn [fst snd].
    destruct r as [rn|]; cbn [from_option] in IHr.
    + destruct (child_id rn c1) as [c1' rid].
      rewrite (IHr rid c1' (((dot ++ _) ++ _) ++ _)), (IHr rid c1' ((([] ++ _) ++ _) ++ _)).
      destruct (add_nodes_edges rn rid c1' []) as [c2 callsr]. cbn [fst snd].
      by rewrite !app_nil_l, <-!(assoc (++)).
    + cbn [fst snd]. by rewrite !app_nil_l, <-!(assoc (++)).
  - destruct r as [rn|]; cbn [from_option] in IHr.
    + destruct (child_id rn counter) as [c1' rid].
      rewrite (IHr rid c1' (dot ++ _)), (IHr rid c1' ([] ++ _)).
      destruct (add_nodes_edges rn rid c1' []) as [c2 callsr]. cbn [fst snd].
      by rewrite !app_nil_l, <-!(assoc (++)).
    + done.
Qed.

Lemma add_nodes_edges_unfold (ch : option ascii) (f : nat) (l r : option Node)
    (id : node_id) (counter : nat) :
  add_nodes_edges (mkNode ch f l r) id counter []
  = ((child_calls id ch "f1" "1" r (child_calls id ch "f0" "0" l counter).1).1,
     DotNode id ch f :: (child_calls id ch "f0" "0" l counter).2
       ++ (child_calls id ch "f1" "1" r (child_calls id ch "f0" "0" l counter).1).2).
Proof.
  destruct l as [ln|], r as [rn|]; unfold child_calls; cbn [add_nodes_edges fst snd].
  - destruct (child_id ln counter) as [c0 lid].
    rewrite (add_nodes_edges_app ln lid c0).
    destruct (add_nodes_edges ln lid c0 []) as [c1 callsl]. cbn [fst snd].
    destruct (child_id rn c1) as [c1' rid].
    rewrite (add_nodes_edges_app rn rid c1').
    destruct (add_nodes_edges rn rid c1' []) as [c2 callsr]. cbn [fst snd].
    f_equal. cbn [app]. by rewrite <-!(assoc (++)).
  - destruct (child_id ln counter) as [c0 lid].
    rewrite (add_nodes_edges_app ln lid c0).
    destruct (add_nodes_edges ln lid c0 []) as [c1 callsl]. cbn [fst snd].
    f_equal. cbn [app]. by rewrite app_nil_r.
  - destruct (child_id rn counter) as [c1' rid].
    rewrite (add_nodes_edges_app rn rid c1').
    destruct (add_nodes_edges rn rid c1' []) as [c2 callsr]. cbn [fst snd].
    done.
  - done.
Qed.

Lemma declared_app (a b : list dot_call) : declared (a ++ b) = declared a ++ declared b.
Proof. apply omap_app. Qed.

Lemma boxes_app (a b : list dot_call) : boxes (a ++ b) = boxes a ++ boxes b.
Proof. apply omap_app. Qed.



Lemma name_in_weaken (lo lo' hi hi' : nat) (cs cs' : list ascii) (d : node_id) :
  lo' ≤ lo → hi ≤ hi' → cs ⊆ cs' → name_in lo hi cs d → name_in lo' hi' cs' d.
Proof. destruct d; simpl; [done|lia|set_solver|done]. Qed.

Lemma subnodes_chars (ch : option ascii) (f : nat) (l r : option Node) :
  chars_below (mkNode ch f l r)
  = from_option (λ n, omap char (subnodes n)) [] l
    ++ from_option (λ n, omap char (subnodes n)) [] r.
Proof. unfold chars_below. cbn [subnodes tail]. rewrite omap_app. by destruct l, r. Qed.

Lemma subnodes_chars_root (n : Node) :
  omap char (subnodes n) = from_option (λ c, [c]) [] (char n) ++ chars_below n.
Proof. unfold chars_below. destruct n as [[c|] f l r]; done. Qed.

Lemma declared_child_calls (parent : node_id) (ch : option ascii) (port label : string)
    (cn : Node) (counter : nat) :
  declared (child_calls parent ch port label (Some cn) counter).2
  = declared (add_nodes_edges cn (child_id cn counter).2 (child_id cn counter).1 []).2.
Proof.
  unfold child_calls. destruct (child_id cn counter) as [c0 cid]. cbn [fst snd].
  rewrite declared_app. apply app_nil_r.
Qed.

Lemma child_calls_counter (parent : node_id) (ch : option ascii) (port label : string)
    (cn : Node) (counter : nat) :
  (child_calls parent ch port label (Some cn) counter).1
  = (add_nodes_edges cn (child_id cn counter).2 (child_id cn counter).1 []).1.
Proof. unfold child_calls. by destruct (child_id cn counter). Qed.

(** Names: the first declared name is the node's own; the others are
    fresh internal numbers or characters of the nodes below, and they are
    pairwise distinct when those characters are. *)
Lemma add_nodes_edges_names (n : Node) :
  ∀ id counter,
    counter ≤ (add_nodes_edges n id counter []).1 ∧
    ∃ ds, declared (add_nodes_edges n id counter []).2 = id :: ds ∧
          Forall (name_in counter (add_nodes_edges n id counter []).1 (chars_below n)) ds ∧
          (NoDup (chars_below n) → NoDup ds).
Proof.
  induction n as [ch f l r IHl IHr] using Node_children_ind; intros id counter.
  assert (∀ (o : option Node) port label counter,
    from_option (λ n, ∀ id counter,
      counter ≤ (add_nodes_edges n id counter []).1 ∧
      ∃ ds, declared (add_nodes_edges n id counter []).2 = id :: ds ∧
            Forall (name_in counter (add_nodes_edges n id counter []).1 (chars_below n)) ds ∧
            (NoDup (chars_below n) → NoDup ds)) True o →
    counter ≤ (child_calls id ch port label o counter).1 ∧
    Forall (name_in counter (child_calls id ch port label o counter).1
              (from_option (λ n, omap char (subnodes n)) [] o))
      (declared (child_calls id ch port label o counter).2) ∧
    (NoDup (from_option (λ n, omap char (subnodes n)) [] o) →
     NoDup (declared (child_calls id ch port label o counter).2))) as Hchild.
  { intros [cn|] port label c IH; [|by repeat constructor].
    cbn [from_option] in *. rewrite declared_child_calls, child_calls_counter.
    rewrite subnodes_chars_root. unfold child_id.
    destruct (char cn) as [a|]; cbn [from_option fst snd].
    - destruct (IH (CharId a) c) as (Hle & ds & -> & Hds & Hnd).
      split_and!; [done| |].
      + constructor; [simpl; by left|].
        eapply Forall_impl; [exact Hds|]. intros d.
        apply name_in_weaken; [done..|set_solver].
      + intros [Ha Hbelow]%NoDup_cons. constructor; [|by apply Hnd].
        intros Hin. rewrite Forall_forall in Hds. by apply Ha, (Hds _ Hin).
    - destruct (IH (InternalId (c + 1)) (c + 1)) as (Hle & ds & -> & Hds & Hnd).
      split_and!; [lia| |].
      + constructor; [simpl; lia|].
        eapply Forall_impl; [exact Hds|]. intros d.
        apply name_in_weaken; [lia|done|done].
      + intros Hbelow. constructor; [|by apply Hnd].
        intros Hin. rewrite Forall_forall in Hds.
        specialize (Hds _ Hin). simpl in Hds. lia. }
  rewrite add_nodes_edges_unfold. cbn [fst snd].
  destruct (Hchild l "f0"%string "0"%string counter IHl) as (HleL & HL & HndL).
  destruct (Hchild r "f1"%string "1"%string
              (child_calls id ch "f0" "0" l counter).1 IHr) as (HleR & HR & HndR).
  split; [lia|]. eexists. split; [|split].
  - change (DotNode id ch f :: ?x) with ([DotNode id ch f] ++ x).
    rewrite !declared_app. reflexivity.
  - rewrite subnodes_chars. apply Forall_app. split.
    + eapply Forall_impl; [exact HL|]. intros d.
      apply name_in_weaken; [done..|set_solver].
    + eapply Forall_impl; [exact HR|]. intros d.
      apply name_in_weaken; [done..|set_solver].
  - rewrite subnodes_chars. intros (HndcL & Hdisj & HndcR)%NoDup_app.
    apply NoDup_app. split_and!; [by apply HndL| |by apply HndR].
    intros d HdL HdR. rewrite Forall_forall in HL, HR.
    specialize (HL _ HdL). specialize (HR _ HdR).
    destruct d as [|k|c|]; simpl in *; [done|lia|by apply (Hdisj c)|done].
Qed.

(** Boxes: one per node of the tree, in preorder, with the node's
    character and frequency. *)
Lemma add_nodes_edges_boxes (n : Node) :
  ∀ id counter,
    (λ b, (b.1.2, b.2)) <$> boxes (add_nodes_edges n id counter []).2
    = (λ m, (char m, freq m)) <$> subnodes n.
Proof.
  induction n as [ch f l r IHl IHr] using Node_children_ind; intros id counter.
  assert (∀ (o : option Node) port label counter,
    from_option (λ n, ∀ id counter,
      (λ b, (b.1.2, b.2)) <$> boxes (add_nodes_edges n id counter []).2
      = (λ m, (char m, freq m)) <$> subnodes n) True o →
    (λ b, (b.1.2, b.2)) <$> boxes (child_calls id ch port label o counter).2
    = (λ m, (char m, freq m)) <$> from_option subnodes [] o) as Hchild.
  { intros [cn|] port label c IH; [|done]. cbn [from_option] in *.
    unfold child_calls. destruct (child_id cn c) as [c0 cid]. cbn [snd].
    rewrite boxes_app. cbn [boxes omap]. rewrite app_nil_r. apply IH. }
  rewrite add_nodes_edges_unfold. cbn [snd subnodes].
  change (DotNode id ch f :: ?x) with ([DotNode id ch f] ++ x).
  rewrite !boxes_app, !fmap_app, (Hchild l), (Hchild r) by done.
  rewrite fmap_cons, fmap_app. by destruct l, r.
Qed.





Lemma strictly_binary_chars (n : Node) :
  strictly_binary n → omap char (subnodes n) = symbols n.
Proof.
  induction n as [[c|] f l r IHl IHr] using Node_children_ind; simpl.
  - by intros [-> ->].
  - destruct l as [l|], r as [r|]; try done. simpl in IHl, IHr.
    intros (_ & Hl & Hr). by rewrite omap_app, IHl, IHr.
Qed.

(** The characters below the root of a built tree are distinct. *)
Lemma built_chars_below (text : string) (root : Node) :
  generate_huffman_codes text
  = Ok (_get_codes_recursive (Some root) "" ∅, Counter text, Some root) →
  text ≠ ""%string → NoDup (chars_below root).
Proof.
  intros Hgen Hne.
  destruct (generate_huffman_codes_root text Hne) as (root' & Hgen' & Hchar & Hnd & _ & Hshape).
  rewrite Hgen in Hgen'. injection Hgen' as _ <-.
  assert (omap char (subnodes root) = chars_below root) as <-
    by (rewrite subnodes_chars_root, Hchar; done).
  destruct Hshape as [Hsb|[c ->]]; [by rewrite strictly_binary_chars|].
  simpl. apply NoDup_singleton.
Qed.

(** X10: for an empty text there is no tree and [visualize_tree] returns
    [None]; otherwise it declares one box per node of the tree, in preorder,
    showing the node's character (if any) and frequency, under pairwise
    distinct names, the first being "root". *)
Theorem visualize_tree_boxes (text : string) :
  ∃ codes frequencies root,
    generate_huffman_codes text = Ok (codes, frequencies, root) ∧
    ((text = ""%string ∧ root = None ∧ visualize_tree root = None) ∨
     ∃ n dot ds,
       root = Some n ∧ visualize_tree root = Some dot ∧
       declared dot = RootId :: ds ∧ NoDup (declared dot) ∧
       (λ b, (b.1.2, b.2)) <$> boxes dot = (λ m, (char m, freq m)) <$> subnodes n).
Proof.
  destruct (decide (text = ""%string)) as [->|Hne].
  - exists ∅, [], None. split; [done|]. by left.
  - destruct (generate_huffman_codes_root text Hne) as (root & Hgen & _).
    eexists _, _, _. split; [exact Hgen|]. right.
    destruct (add_nodes_edges_names root RootId 0) as (_ & ds & Hds & Hin & Hnd).
    exists root, (add_nodes_edges root RootId 0 []).2, ds.
    split_and!; [done|done|done| |apply add_nodes_edges_boxes].
    rewrite Hds. constructor.
    + intros Hroot. rewrite Forall_forall in Hin. by apply (Hin _ Hroot).
    + by apply Hnd, (built_chars_below text).
Qed.





(** * The merge loop is greedy, and greedy merging is optimal *)

(** ** Depth assignments *)

#[global] Instance depth_cost_Permutation : Proper ((≡ₚ) ==> (=)) depth_cost.
Proof. intros A B HAB. unfold depth_cost. by rewrite HAB. Qed.

#[global] Instance kraft_sum_Permutation (H : nat) : Proper ((≡ₚ) ==> (=)) (kraft_sum H).
Proof. intros A B HAB. unfold kraft_sum. by rewrite HAB. Qed.

Lemma kraft_sum_scale (H k : nat) (depths : list nat) :
  Forall (λ d, d ≤ H) depths →
  kraft_sum (H + k) depths = 2 ^ k * kraft_sum H depths.
Proof.
  unfold kraft_sum. induction 1 as [|d depths Hd _ IH]; simpl; [by rewrite Nat.mul_0_r|].
  rewrite IH. replace (H + k - d) with (k + (H - d)) by lia.
  rewrite Nat.pow_add_r. lia.
Qed.

Lemma kraft_sum_0 (depths : list nat) : kraft_sum 0 depths = length depths.
Proof.
  unfold kraft_sum. induction depths as [|d depths IH]; [done|].
  cbn [sum_list_with length]. by rewrite IH.
Qed.

Lemma kraft_sum_divide (D : nat) (depths : list nat) :
  Forall (λ d, d < D) depths → Nat.divide 2 (kraft_sum D depths).
Proof.
  unfold kraft_sum. induction 1 as [|d depths Hd _ IH]; simpl.
  - apply Nat.divide_0_r.
  - apply Nat.divide_add_r; [|done].
    replace (D - d) with (S (D - d - 1)) by lia.
    rewrite Nat.pow_succ_r'. apply Nat.divide_factor_l.
Qed.

(** A complete list of depths is complete at its maximum. *)
Lemma kraft_complete_max (depths : list nat) :
  kraft_complete depths →
  depths ≠ [] ∧ kraft_sum (max_list depths) depths = 2 ^ max_list depths.
Proof.
  intros (H & Hbound & Hsum).
  assert (depths ≠ []) as Hne.
  { intros ->. unfold kraft_sum in Hsum. simpl in Hsum.
    pose proof (Nat.pow_nonzero 2 H). lia. }
  split; [done|]. set (D := max_list depths).
  assert (D ≤ H) as HD.
  { pose proof (max_list_elem_of depths Hne) as Hin.
    by apply (proj1 (Forall_forall _ _) Hbound) in Hin. }
  assert (Forall (λ d, d ≤ D) depths) as HboundD.
  { apply Forall_forall. intros d Hd. by apply max_list_elem_of_le. }
  replace H with (D + (H - D)) in Hsum by lia.
  rewrite kraft_sum_scale, Nat.pow_add_r in Hsum by done.
  rewrite (Nat.mul_comm (2 ^ D)) in Hsum.
  apply Nat.mul_cancel_l in Hsum; [done|]. by apply Nat.pow_nonzero.
Qed.

(** With a deepest depth used once, the Kraft sum is odd. *)
Lemma kraft_complete_deepest_pair (D : nat) (depths : list nat) :
  0 < D → Forall (λ d, d ≤ D) depths →
  kraft_sum D (D :: depths) = 2 ^ D → D ∈ depths.
Proof.
  intros HD Hbound Hsum. destruct (decide (D ∈ depths)) as [|Hnot]; [done|].
  exfalso.
  assert (Forall (λ d, d < D) depths) as Hlt.
  { apply Forall_forall. intros d Hd.
    pose proof (proj1 (Forall_forall _ _) Hbound d Hd) as Hle. simpl in Hle.
    destruct (decide (d = D)) as [->|]; [done|lia]. }
  apply kraft_sum_divide in Hlt as [j Hj].
  assert (Nat.divide 2 (2 ^ D)) as [k Hk].
  { replace D with (S (D - 1)) by lia.
    rewrite Nat.pow_succ_r'. apply Nat.divide_factor_l. }
  unfold kraft_sum in *. cbn [sum_list_with] in Hsum.
  rewrite Nat.sub_diag, Nat.pow_0_r in Hsum. lia.
Qed.

(** The lightest weight can take the deepest depth at no extra cost. *)
Lemma pull_min (A : list (nat * nat)) (x D : nat) :
  x ∈ A.*1 → (∀ z, z ∈ A.*1 → x ≤ z) → Forall (λ d, d ≤ D) A.*2 → D ∈ A.*2 →
  ∃ R, x :: R.*1 ≡ₚ A.*1 ∧ D :: R.*2 ≡ₚ A.*2 ∧
       depth_cost ((x, D) :: R) ≤ depth_cost A.
Proof.
  intros Hx Hmin Hbound HD.
  apply list_elem_of_fmap in Hx as ([x' dx] & -> & Hin). simpl in *.
  apply elem_of_Permutation in Hin as [A0 HA].
  destruct (decide (dx = D)) as [->|Hne].
  { exists A0. rewrite HA. by csimpl. }
  assert (D ∈ A0.*2) as HD0.
  { rewrite HA in HD. csimpl in HD. apply elem_of_cons in HD as [|]; [done|done]. }
  apply list_elem_of_fmap in HD0 as ([w1 d1] & -> & Hin1). simpl in *.
  apply elem_of_Permutation in Hin1 as [A1 HA1].
  exists ((w1, dx) :: A1). rewrite HA, HA1. csimpl. split_and!.
  - done.
  - apply perm_swap.
  - assert (x' ≤ w1) as Hw.
    { apply Hmin. rewrite HA, HA1. csimpl. set_solver. }
    assert (dx ≤ d1) as Hd.
    { rewrite HA in Hbound. csimpl in Hbound. by inversion Hbound. }
    unfold depth_cost. simpl. nia.
Qed.

(** Two lightest weights can be made the deepest siblings and merged. *)
Lemma exchange (A : list (nat * nat)) (x y : nat) (W' : list nat) :
  A.*1 ≡ₚ x :: y :: W' →
  (∀ z, z ∈ A.*1 → x ≤ z) → (∀ z, z ∈ y :: W' → y ≤ z) →
  kraft_complete A.*2 →
  ∃ A', A'.*1 ≡ₚ (x + y) :: W' ∧ kraft_complete A'.*2 ∧
        depth_cost A' + x + y ≤ depth_cost A.
Proof.
  intros HW Hx Hy [Hne Hsum]%kraft_complete_max.
  set (D := max_list A.*2) in *.
  assert (Forall (λ d, d ≤ D) A.*2) as Hbound.
  { apply Forall_forall. intros d Hd. by apply max_list_elem_of_le. }
  assert (0 < D) as HD.
  { destruct (decide (D = 0)) as [HD0|]; [|lia]. rewrite HD0 in Hsum.
    rewrite kraft_sum_0, length_fmap in Hsum.
    apply Permutation_length in HW. rewrite length_fmap in HW.
    simpl in *. lia. }
  destruct (pull_min A x D) as (R1 & HR1w & HR1d & HR1c); [|done|done| |].
  { rewrite HW. set_solver. }
  { by apply max_list_elem_of. }
  assert (R1.*1 ≡ₚ y :: W') as HR1.
  { apply (Permutation_cons_inv (a := x)). by rewrite HR1w. }
  assert (Forall (λ d, d ≤ D) R1.*2) as Hbound1.
  { rewrite <-HR1d in Hbound. by inversion Hbound. }
  assert (D ∈ R1.*2) as HD1.
  { apply kraft_complete_deepest_pair; [done..|].
    unfold kraft_sum in *. by rewrite HR1d. }
  destruct (pull_min R1 y D) as (R2 & HR2w & HR2d & HR2c); [| |done|done|].
  { rewrite HR1. set_solver. }
  { intros z Hz. apply Hy. by rewrite <-HR1. }
  assert (R2.*1 ≡ₚ W') as HR2.
  { apply (Permutation_cons_inv (a := y)). by rewrite HR2w. }
  exists ((x + y, D - 1) :: R2). csimpl. split_and!.
  - by rewrite HR2.
  - exists D. split.
    + constructor; [lia|]. rewrite <-HR2d in Hbound1. by inversion Hbound1.
    + unfold kraft_sum in *. rewrite <-HR1d, <-HR2d in Hsum. simpl in *.
      rewrite Nat.sub_diag in Hsum. replace (D - (D - 1)) with 1 by lia.
      simpl in *. lia.
  - unfold depth_cost in *. simpl in *. nia.
Qed.

(** No complete depth assignment of the same weights is cheaper than the
    greedy merging. *)
Lemma greedy_cost_optimal (W : list nat) (c : nat) :
  greedy_cost W c →
  ∀ A : list (nat * nat), A.*1 ≡ₚ W → kraft_complete A.*2 → c ≤ depth_cost A.
Proof.
  induction 1 as [w|W x y W' c HW Hx Hy _ IH]; intros A HA Hkraft; [lia|].
  destruct (exchange A x y W') as (A' & HA' & Hkraft' & Hcost); [| |done|done|].
  { by rewrite HA. }
  { intros z Hz. apply Hx. by rewrite <-HA. }
  specialize (IH A' HA' Hkraft'). lia.
Qed.

Lemma greedy_cost_Permutation (W V : list nat) (c : nat) :
  W ≡ₚ V → greedy_cost W c → greedy_cost V c.
Proof.
  intros HWV Hg. revert V HWV.
  destruct Hg as [w|W x y W' c HW Hx Hy Hrec]; intros V HWV.
  - apply Permutation_singleton_l in HWV as <-. constructor.
  - apply (greedy_merge V x y W'); [by rewrite <-HWV| |done|done].
    intros z Hz. apply Hx. by rewrite HWV.
Qed.

#[global] Instance kraft_complete_Permutation : Proper ((≡ₚ) ==> iff) kraft_complete.
Proof.
  intros A B HAB. unfold kraft_complete.
  split; intros (H & Hbound & Hsum); exists H.
  - by rewrite <-HAB.
  - by rewrite HAB.
Qed.

(** ** The depths of the leaves of a tree *)

Lemma leaf_depths_cost (n : Node) :
  ∀ depth, depth_cost (leaf_depths n depth) = weighted_path_length n depth.
Proof.
  unfold depth_cost.
  induction n as [[c|] f l r IHl IHr] using Node_children_ind; intros d.
  - simpl. lia.
  - cbn [leaf_depths weighted_path_length]. rewrite sum_list_with_app.
    destruct l as [l|], r as [r|]; simpl in IHl, IHr; by rewrite ?IHl, ?IHr.
Qed.

Lemma leaf_depths_weights (n : Node) :
  ∀ depth, (leaf_depths n depth).*1 = (leaf_entries n).*2.
Proof.
  induction n as [[c|] f l r IHl IHr] using Node_children_ind; intros d; [done|].
  cbn [leaf_depths leaf_entries]. rewrite !fmap_app.
  destruct l as [l|], r as [r|]; simpl in IHl, IHr; by rewrite ?IHl, ?IHr.
Qed.

Lemma leaf_depths_leaves (n : Node) :
  ∀ current_code,
    current_code ≠ ""%string →
    (λ e, (e.1.2, String.length e.2)) <$> leaves n current_code
    = leaf_depths n (String.length current_code).
Proof.
  induction n as [[c|] f l r IHl IHr] using Node_children_ind; intros cc Hcc.
  - by destruct cc.
  - cbn [leaves leaf_depths]. rewrite fmap_app.
    assert (∀ a, cc +:+ String a "" ≠ ""%string) as Hne by (by destruct cc).
    assert (∀ a, String.length (cc +:+ String a "") = S (String.length cc)) as Hlen
      by (intros a; rewrite append_length; simpl; lia).
    destruct l as [l|], r as [r|]; simpl in IHl, IHr; csimpl;
      rewrite ?IHl, ?IHr, ?Hlen by done; done.
Qed.

Lemma leaf_depths_leaves_root (f : nat) (l r : option Node) :
  (λ e, (e.1.2, String.length e.2)) <$> leaves (mkNode None f l r) ""
  = leaf_depths (mkNode None f l r) 0.
Proof.
  cbn [leaves leaf_depths]. rewrite fmap_app.
  destruct l as [l|], r as [r|]; csimpl;
    rewrite ?(leaf_depths_leaves _ "0"), ?(leaf_depths_leaves _ "1") by done; done.
Qed.

(** In a strictly binary tree the depths of the leaves below a node at
    depth [depth] fill that node's share of the Kraft sum. *)
Lemma leaf_depths_kraft (n : Node) :
  strictly_binary n →
  ∀ depth H,
    Forall (λ d, d ≤ H) (leaf_depths n depth).*2 →
    depth ≤ H ∧ kraft_sum H (leaf_depths n depth).*2 = 2 ^ (H - depth).
Proof.
  unfold kraft_sum.
  induction n as [[c|] f l r IHl IHr] using Node_children_ind; intros Hsb d H Hbound.
  - simpl in *. inversion Hbound; subst. split; [done|lia].
  - destruct l as [l|], r as [r|]; simpl in Hsb; try done.
    destruct Hsb as (_ & Hl & Hr). simpl in IHl, IHr.
    cbn [leaf_depths] in *. rewrite fmap_app in *.
    apply Forall_app in Hbound as [Hbl Hbr].
    destruct (IHl Hl _ _ Hbl) as [Hd IHl']. destruct (IHr Hr _ _ Hbr) as [_ IHr'].
    rewrite sum_list_with_app, IHl', IHr'. split; [lia|].
    replace (H - d) with (S (H - S d)) by lia.
    rewrite Nat.pow_succ_r'. lia.
Qed.

Lemma leaf_depths_complete (n : Node) :
  strictly_binary n → kraft_complete (leaf_depths n 0).*2.
Proof.
  intros Hsb. exists (max_list (leaf_depths n 0).*2).
  assert (Forall (λ d, d ≤ max_list (leaf_depths n 0).*2) (leaf_depths n 0).*2) as Hb.
  { apply Forall_forall. intros d Hd. by apply max_list_elem_of_le. }
  split; [done|].
  destruct (leaf_depths_kraft n Hsb 0 _ Hb) as [_ ->]. by rewrite Nat.sub_0_r.
Qed.

Lemma weighted_path_length_S (n : Node) :
  strictly_binary n →
  ∀ depth, weighted_path_length n (S depth) = weighted_path_length n depth + freq n.
Proof.
  induction n as [[c|] f l r IHl IHr] using Node_children_ind; intros Hsb d.
  - simpl. lia.
  - destruct l as [l|], r as [r|]; simpl in Hsb; try done.
    destruct Hsb as (-> & Hl & Hr). simpl in IHl, IHr.
    cbn [weighted_path_length freq]. rewrite (IHl Hl), (IHr Hr). lia.
Qed.

(** ** The merge loop takes the two lightest trees *)

Lemma merge_step_greedy (priority_queue : list Node) :
  heap_ordered priority_queue → 1 < length priority_queue →
  ∃ left_child right_child rest pq',
    merge_step priority_queue = Ok pq' ∧
    priority_queue ≡ₚ left_child :: right_child :: rest ∧
    pq' ≡ₚ merged left_child right_child :: rest ∧
    heap_ordered pq' ∧
    (∀ x, x ∈ priority_queue → freq left_child ≤ freq x) ∧
    (∀ x, x ∈ right_child :: rest → freq right_child ≤ freq x).
Proof.
  intros Hord Hlen. unfold merge_step.
  destruct (heappop_items priority_queue) as (l & pq1 & Hpop1 & Hperm1);
    [intros ->; simpl in *; lia|].
  rewrite Hpop1, bind_Ok.
  destruct (heappop_ordered _ _ _ Hord Hpop1) as [Hord1 Hmin1].
  assert (length priority_queue = S (length pq1)) as Hlen1
    by (by rewrite <-Hperm1).
  destruct (heappop_items pq1) as (r & pq2 & Hpop2 & Hperm2);
    [intros ->; simpl in *; lia|].
  rewrite Hpop2, bind_Ok.
  destruct (heappop_ordered _ _ _ Hord1 Hpop2) as [Hord2 Hmin2].
  destruct (heappush_items pq2 (merged l r)) as (pq3 & Hpush & Hperm3).
  exists l, r, pq2, pq3. split_and!; [done| |done| |done|].
  - by rewrite <-Hperm1, <-Hperm2.
  - by eapply heappush_ordered.
  - intros x Hx. apply Hmin2. by rewrite <-Hperm2.
Qed.

(** The loop ends with one node and keeps every property of the forest
    that survives reordering and merging two lightest trees. *)
Lemma merge_while_greedy (P : list Node → Prop) :
  (∀ pq pq', pq ≡ₚ pq' → P pq → P pq') →
  (∀ l r rest,
     P (l :: r :: rest) →
     (∀ x, x ∈ l :: r :: rest → freq l ≤ freq x) →
     (∀ x, x ∈ r :: rest → freq r ≤ freq x) →
     P (merged l r :: rest)) →
  ∀ (fuel : nat) (priority_queue : list Node),
    heap_ordered priority_queue →
    length priority_queue ≤ S fuel → priority_queue ≠ [] → P priority_queue →
    ∃ root, merge_while fuel priority_queue = Ok [root] ∧ P [root].
Proof.
  intros Hperm Hmerge. induction fuel as [|fuel IH]; intros pq Hord Hfuel Hne HP.
  - destruct pq as [|root [|? ?]]; simpl in *; [done| |lia]. by exists root.
  - cbn [merge_while]. destruct (decide (1 < length pq)) as [Hlen|Hlen].
    + destruct (merge_step_greedy pq Hord Hlen)
        as (l & r & rest & pq' & -> & Hpq & Hpq' & Hord' & Hl & Hr).
      rewrite bind_Ok. apply IH; [done| | |].
      * rewrite Hpq'. rewrite Hpq in Hfuel. simpl in *. lia.
      * intros ->. by apply Permutation_nil_cons in Hpq'.
      * apply (Hperm (merged l r :: rest)); [done|].
        apply Hmerge; [by apply (Hperm pq)| |done].
        intros x Hx. apply Hl. by rewrite Hpq.
    + destruct pq as [|root [|? ?]]; simpl in *; [done| |lia]. by exists root.
Qed.

Lemma build_huffman_tree_greedy (text : string) (P : list Node → Prop) :
  1 < length (Counter text) →
  (∀ pq pq', pq ≡ₚ pq' → P pq → P pq') →
  (∀ l r rest,
     P (l :: r :: rest) →
     (∀ x, x ∈ l :: r :: rest → freq l ≤ freq x) →
     (∀ x, x ∈ r :: rest → freq r ≤ freq x) →
     P (merged l r :: rest)) →
  P (map (λ '(c, f), leaf c f) (Counter text)) →
  ∃ root, build_huffman_tree text = Ok (Some root, Counter text) ∧ P [root].
Proof.
  intros Hlen Hperm Hmerge Hinit. destruct text as [|a text]; [simpl in Hlen; lia|].
  unfold build_huffman_tree. set (frequencies := Counter (String a text)) in *.
  destruct (push_leaves_items frequencies []) as (pq & Hpush & Hpq).
  rewrite Hpush, bind_Ok. rewrite app_nil_r in Hpq.
  assert (heap_ordered pq) as Hord
    by (eapply push_leaves_ordered; [apply heap_ordered_nil|done]).
  assert (length pq = length frequencies) as Hpqlen
    by (by rewrite Hpq, length_map).
  unfold wrap_single. rewrite decide_False, bind_Ok by lia.
  destruct (merge_while_greedy P Hperm Hmerge (length pq) pq)
    as (root & -> & Hroot); [done|lia|intros ->; simpl in *; lia| |].
  - by apply (Hperm (map (λ '(c, f), leaf c f) frequencies)).
  - rewrite bind_Ok, heappop_singleton, bind_Ok. by exists root.
Qed.

(** The weighted path length of the returned tree is the cost of merging
    the counts greedily. *)
Lemma build_huffman_tree_greedy_cost (text : string) :
  1 < length (Counter text) →
  ∃ root,
    build_huffman_tree text = Ok (Some root, Counter text) ∧
    strictly_binary root ∧
    greedy_cost (Counter text).*2 (weighted_path_length root 0).
Proof.
  intros Hlen.
  destruct (build_huffman_tree_greedy text
    (λ pq, Forall strictly_binary pq ∧
           ∀ c, greedy_cost (freq <$> pq) c →
                greedy_cost (Counter text).*2
                  (c + sum_list_with (λ n, weighted_path_length n 0) pq)) Hlen)
    as (root & Hb & Hsb & Hcost).
  - intros pq pq' Hperm [Hsb Hcost]. split; [by rewrite <-Hperm|].
    intros c Hc. rewrite <-Hperm. apply Hcost.
    apply (greedy_cost_Permutation (freq <$> pq')); [by rewrite Hperm|done].
  - intros l r rest [Hsb Hcost] Hl Hr.
    apply Forall_cons in Hsb as [Hsbl Hsb]. apply Forall_cons in Hsb as [Hsbr Hsb].
    split; [constructor; [by simpl|done]|].
    intros c Hc. csimpl in Hc.
    assert (greedy_cost (freq <$> l :: r :: rest) (c + freq l + freq r)) as Hc'.
    { apply (greedy_merge _ (freq l) (freq r) (freq <$> rest)); [done| | |done].
      - intros z (x & -> & Hx)%list_elem_of_fmap. by apply Hl.
      - intros z Hz. change (z ∈ freq <$> r :: rest) in Hz.
        apply list_elem_of_fmap in Hz as (x & -> & Hx). by apply Hr. }
    apply Hcost in Hc'. cbn [sum_list_with merged weighted_path_length] in *.
    rewrite !weighted_path_length_S by done.
    replace (c + (weighted_path_length l 0 + freq l + (weighted_path_length r 0 + freq r) +
                  sum_list_with (λ n, weighted_path_length n 0) rest))
      with (c + freq l + freq r +
            (weighted_path_length l 0 + (weighted_path_length r 0 +
             sum_list_with (λ n, weighted_path_length n 0) rest))) by lia.
    done.
  - split; [apply strictly_binary_leaves|].
    intros c Hc.
    assert (sum_list_with (λ n, weighted_path_length n 0)
              (map (λ '(c, f), leaf c f) (Counter text)) = 0) as ->.
    { clear. induction (Counter text) as [|[c f] d IH]; [done|]. simpl. by rewrite IH. }
    rewrite Nat.add_0_r.
    apply (greedy_cost_Permutation (freq <$> map (λ '(c, f), leaf c f) (Counter text)));
      [|done].
    clear. induction (Counter text) as [|[c f] d IH]; [done|]. csimpl. by rewrite IH.
  - exists root. split; [done|]. apply Forall_cons in Hsb as [Hsb _].
    split; [done|].
    specialize (Hcost 0 (greedy_one _)). simpl in Hcost.
    by rewrite Nat.add_0_r in Hcost.
Qed.

(** ** The size of the encoding under any code tree *)

Lemma internal_leaf_entries (n : Node) :
  strictly_binary n → char n = None → 1 < length (leaf_entries n).
Proof.
  destruct n as [[c|] f [l|] [r|]]; simpl; try done.
  intros (_ & Hl & Hr) _. rewrite length_app.
  pose proof (symbols_nonempty l Hl) as Hl'. pose proof (symbols_nonempty r Hr) as Hr'.
  rewrite <-leaf_entries_symbols, length_fmap in Hl', Hr'. lia.
Qed.

(** A tree over the characters of the frequency table encodes the text in
    as many bits as its weighted path length. *)
Lemma tree_compressed_size (n : Node) (frequencies : list (ascii * nat)) :
  char n = None → NoDup frequencies.*1 → leaf_entries n ≡ₚ frequencies →
  compressed_size frequencies (_get_codes_recursive (Some n) "" ∅)
  = weighted_path_length n 0.
Proof.
  intros Hchar Hnd Hleaves. rewrite compressed_size_weighted.
  rewrite <-(weighted_length_Permutation _ _ _ Hleaves).
  rewrite weighted_length_leaves
    by (by rewrite <-leaf_entries_symbols, Hleaves).
  destruct n as [[c|] f l r]; [done|]. apply leaves_weighted_root.
Qed.

(** The returned tree, its compressed size, and the greedy cost. *)
Lemma generate_huffman_codes_greedy (text : string) :
  1 < length (Counter text) →
  ∃ root,
    generate_huffman_codes text
    = Ok (_get_codes_recursive (Some root) "" ∅, Counter text, Some root) ∧
    char root = None ∧ strictly_binary root ∧
    leaf_entries root ≡ₚ Counter text ∧
    compressed_size (Counter text) (_get_codes_recursive (Some root) "" ∅)
    = weighted_path_length root 0 ∧
    greedy_cost (Counter text).*2 (weighted_path_length root 0).
Proof.
  intros Hlen.
  destruct (build_huffman_tree_greedy_cost text Hlen) as (root & Hb & Hsb & Hgreedy).
  assert (text ≠ ""%string) as Hne by (intros ->; simpl in Hlen; lia).
  destruct (build_huffman_tree_root text Hne) as (root' & Hb' & Hchar & Hleaves & _).
  assert (root' = root) as -> by congruence.
  exists root. split_and!; [by apply generate_huffman_codes_built|done..| |done].
  apply tree_compressed_size; [done|apply Counter_NoDup|done].
Qed.

(** X12: no strictly binary code tree over the characters of the text, with
    the counts of the frequency table as weights, encodes the text in fewer
    bits than the tree built by [build_huffman_tree]: the compressed size is
    at most the weighted path length of any such tree, which is the
    compressed size obtained with that tree's code table. *)
Theorem compressed_size_minimal (text : string) :
  ∃ codes frequencies root,
    generate_huffman_codes text = Ok (codes, frequencies, root) ∧
    ∀ other : Node,
      strictly_binary other → char other = None →
      leaf_entries other ≡ₚ frequencies →
      compressed_size frequencies (_get_codes_recursive (Some other) "" ∅)
      = weighted_path_length other 0 ∧
      compressed_size frequencies codes ≤ weighted_path_length other 0.
Proof.
  destruct (generate_huffman_codes_total text) as (codes & root & Hgen & _).
  exists codes, (Counter text), root. split; [done|].
  intros other Hsb Hchar Hleaves.
  split; [apply tree_compressed_size; [done|apply Counter_NoDup|done]|].
  assert (1 < length (Counter text)) as Hlen
    by (rewrite <-Hleaves; by apply internal_leaf_entries).
  destruct (generate_huffman_codes_greedy text Hlen)
    as (root' & Hgen' & _ & _ & _ & Hsize & Hgreedy).
  rewrite Hgen in Hgen'. injection Hgen' as -> _.
  change (_get_codes_node root' "" ∅) with (_get_codes_recursive (Some root') "" ∅).
  rewrite Hsize, <-(leaf_depths_cost other).
  apply (greedy_cost_optimal _ _ Hgreedy).
  - by rewrite leaf_depths_weights, Hleaves.
  - by apply leaf_depths_complete.
Qed.

Lemma elem_of_Permutation_two {A : Type} (l : list A) (x y : A) :
  x ∈ l → y ∈ l → x ≠ y → ∃ l', l ≡ₚ x :: y :: l'.
Proof.
  intros [l1 Hl1]%elem_of_Permutation Hy Hxy.
  rewrite Hl1 in Hy. apply elem_of_cons in Hy as [->|Hy]; [done|].
  apply elem_of_Permutation in Hy as [l2 Hl2]. exists l2. by rewrite Hl1, Hl2.
Qed.

(** X13: a character that occurs more often than another never has the
    longer code of the two. *)
Theorem frequent_characters_have_short_codes (text : string) :
  ∃ codes frequencies root,
    generate_huffman_codes text = Ok (codes, frequencies, root) ∧
    ∀ c1 f1 s1 c2 f2 s2,
      (c1, f1) ∈ frequencies → (c2, f2) ∈ frequencies →
      codes !! c1 = Some s1 → codes !! c2 = Some s2 →
      f1 < f2 → String.length s2 ≤ String.length s1.
Proof.
  destruct (generate_huffman_codes_total text) as (codes & root & Hgen & _).
  exists codes, (Counter text), root. split; [done|].
  intros c1 f1 s1 c2 f2 s2 Hin1 Hin2 Hs1 Hs2 Hf.
  assert (1 < length (Counter text)) as Hlen.
  { destruct (elem_of_Permutation_two _ _ _ Hin1 Hin2) as [d Hd];
      [intros [= _ ?]; lia|].
    rewrite Hd. simpl. lia. }
  destruct (generate_huffman_codes_greedy text Hlen)
    as (root' & Hgen' & Hchar & Hsb & Hleaves & _ & Hgreedy).
  rewrite Hgen in Hgen'. injection Hgen' as -> _.
  change (_get_codes_node root' "" ∅)
    with (_get_codes_recursive (Some root') "" ∅) in *.
  assert (NoDup (symbols root')) as Hnd
    by (rewrite <-leaf_entries_symbols, Hleaves; apply Counter_NoDup).
  assert (∀ c f s, (c, f) ∈ Counter text →
            _get_codes_recursive (Some root') "" ∅ !! c = Some s →
            (c, f, s) ∈ leaves root' "") as Hrec.
  { intros c f s Hin Hs. rewrite <-Hleaves, <-(leaves_entries root' "") in Hin.
    apply list_elem_of_fmap in Hin as ([[c' f'] s'] & [= <- <-] & Hin).
    pose proof (leaves_lookup _ _ _ _ Hnd Hin) as Hs'.
    rewrite Hs in Hs'. by injection Hs' as ->. }
  destruct (elem_of_Permutation_two _ _ _ (Hrec _ _ _ Hin1 Hs1) (Hrec _ _ _ Hin2 Hs2))
    as [L HL]; [intros [= _ ? _]; lia|].
  set (g := λ e : ascii * nat * string, (e.1.2, String.length e.2)).
  assert (g <$> leaves root' "" = leaf_depths root' 0) as Hdepths.
  { destruct root' as [[c|] f l r]; [done|]. apply leaf_depths_leaves_root. }
  assert (leaf_depths root' 0
          ≡ₚ (f1, String.length s1) :: (f2, String.length s2) :: (g <$> L)) as HA
    by (by rewrite <-Hdepths, HL).
  pose proof (leaf_depths_cost root' 0) as Hcost.
  pose proof (leaf_depths_complete root' Hsb) as Hkraft.
  assert ((leaf_depths root' 0).*1 ≡ₚ (Counter text).*2) as Hweights
    by (by rewrite leaf_depths_weights, Hleaves).
  rewrite HA in Hcost, Hkraft, Hweights. csimpl in *.
  pose proof (greedy_cost_optimal _ _ Hgreedy
    ((f1, String.length s2) :: (f2, String.length s1) :: (g <$> L))) as Hopt.
  csimpl in Hopt. specialize (Hopt Hweights).
  rewrite (perm_swap (String.length s1)) in Hopt. specialize (Hopt Hkraft).
  unfold depth_cost in *. simpl in *. nia.
Qed.

(** ** Depths whose Kraft sum is at most one *)

Lemma kraft_within_max (depths : list nat) :
  kraft_within depths → depths ≠ [] →
  kraft_sum (max_list depths) depths ≤ 2 ^ max_list depths.
Proof.
  intros (H & Hbound & Hsum) Hne. set (D := max_list depths).
  assert (D ≤ H) as HD.
  { pose proof (max_list_elem_of depths Hne) as Hin.
    by apply (proj1 (Forall_forall _ _) Hbound) in Hin. }
  assert (Forall (λ d, d ≤ D) depths) as HboundD.
  { apply Forall_forall. intros d Hd. by apply max_list_elem_of_le. }
  replace H with (D + (H - D)) in Hsum by lia.
  rewrite kraft_sum_scale, Nat.pow_add_r in Hsum by done.
  rewrite (Nat.mul_comm (2 ^ D)) in Hsum.
  apply Nat.mul_le_mono_pos_l in Hsum; [done|].
  pose proof (Nat.pow_nonzero 2 (H - D)). lia.
Qed.

(** Depths that leave room can be shortened until they fill the tree. *)
Lemma kraft_within_complete (A : list (nat * nat)) :
  1 < length A → kraft_within A.*2 →
  ∃ A', A'.*1 ≡ₚ A.*1 ∧ kraft_complete A'.*2 ∧ depth_cost A' ≤ depth_cost A.
Proof.
  remember (sum_list A.*2) as n eqn:Hn. revert A Hn.
  induction n as [n IH] using lt_wf_ind. intros A -> Hlen Hk.
  assert (A.*2 ≠ []) as Hne by (destruct A; simpl in *; [lia|done]).
  pose proof (kraft_within_max _ Hk Hne) as Hsum.
  pose proof (max_list_elem_of _ Hne) as HD.
  assert (Forall (λ d, d ≤ max_list A.*2) A.*2) as Hbound.
  { apply Forall_forall. intros d Hd. by apply max_list_elem_of_le. }
  set (D := max_list A.*2) in *.
  destruct (decide (kraft_sum D A.*2 = 2 ^ D)) as [Heq|Hneq].
  { exists A. split_and!; [done| |done]. by exists D. }
  assert (0 < D) as HD0.
  { destruct (decide (D = 0)) as [HD0|]; [|lia]. rewrite HD0 in Hsum, Hneq.
    rewrite kraft_sum_0, length_fmap in Hsum, Hneq. simpl in *. lia. }
  apply list_elem_of_fmap in HD as ([w d] & HdD & Hin). simpl in HdD. subst d.
  apply elem_of_Permutation in Hin as [A0 HA].
  rewrite HA in Hsum, Hneq, Hbound. csimpl in *.
  apply Forall_cons in Hbound as [_ Hbound].
  unfold kraft_sum in Hsum, Hneq. cbn [sum_list_with] in Hsum, Hneq.
  rewrite Nat.sub_diag, Nat.pow_0_r in Hsum, Hneq.
  destruct (IH (sum_list ((w, D - 1) :: A0).*2)) with (A := (w, D - 1) :: A0)
    as (A' & HA' & Hcomplete & Hcost).
  - rewrite HA. csimpl. lia.
  - done.
  - apply Permutation_length in HA. simpl in *. lia.
  - exists D. csimpl. split; [constructor; [lia|done]|].
    unfold kraft_sum. cbn [sum_list_with].
    replace (D - (D - 1)) with 1 by lia. rewrite Nat.pow_1_r. lia.
  - exists A'. split_and!; [by rewrite HA', HA|done|].
    rewrite HA. unfold depth_cost in *. simpl in *. nia.
Qed.

(** No depth assignment for the same weights that fits into the binary tree
    is cheaper than the greedy merging. *)
Lemma greedy_cost_optimal_within (W : list nat) (c : nat) (A : list (nat * nat)) :
  greedy_cost W c → 1 < length A → A.*1 ≡ₚ W → kraft_within A.*2 →
  c ≤ depth_cost A.
Proof.
  intros Hgreedy Hlen HW Hk.
  destruct (kraft_within_complete A Hlen Hk) as (A' & HA' & Hcomplete & Hcost).
  pose proof (greedy_cost_optimal _ _ Hgreedy A') as Hopt.
  rewrite HA' in Hopt. specialize (Hopt HW Hcomplete). lia.
Qed.

(** ** The Kraft inequality of a prefix-free list of bit strings *)

Lemma prefix_free_list_empty (ss : list string) :
  prefix_free_list ss → ""%string ∈ ss → ss = [""%string].
Proof.
  destruct ss as [|s ss]; [by intros _ ?%elem_of_nil|].
  intros [Hs _] [<-|Hin]%elem_of_cons.
  - destruct ss as [|t ss]; [done|].
    apply Forall_cons in Hs as [[Ht _] _]. by destruct t.
  - apply (proj1 (Forall_forall _ _) Hs) in Hin as [_ Hin]. by destruct s.
Qed.

Lemma elem_of_tails (b : ascii) (ss : list string) (t : string) :
  t ∈ tails b ss ↔ String b t ∈ ss.
Proof.
  unfold tails. rewrite list_elem_of_omap. split.
  - intros ([|a s] & Hin & Hs); [done|].
    destruct (decide (a = b)) as [->|]; [|done]. by injection Hs as ->.
  - intros Hin. exists (String b t). split; [done|]. by rewrite decide_True.
Qed.

Lemma prefix_String (a : ascii) (s t : string) :
  String.prefix (String a s) (String a t) = String.prefix s t.
Proof. simpl. by destruct (ascii_dec a a). Qed.

Lemma prefix_free_list_tails (b : ascii) (ss : list string) :
  prefix_free_list ss → prefix_free_list (tails b ss).
Proof.
  induction ss as [|s ss IH]; [done|]. intros [Hs Hss].
  specialize (IH Hss). destruct s as [|a s]; [done|].
  unfold tails in *. cbn [omap list_omap]. fold (tails b ss) in *.
  destruct (decide (a = b)) as [->|]; [|done].
  split; [|done]. apply Forall_forall. intros t Ht%elem_of_tails.
  apply (proj1 (Forall_forall _ _) Hs) in Ht. by rewrite !prefix_String in Ht.
Qed.

Lemma kraft_sum_tails (H : nat) (ss : list string) :
  ""%string ∉ ss → Forall bits_only ss →
  kraft_sum (S H) (String.length <$> ss)
  = kraft_sum H (String.length <$> tails "0" ss)
    + kraft_sum H (String.length <$> tails "1" ss).
Proof.
  unfold kraft_sum. induction ss as [|s ss IH]; [done|].
  intros Hne Hbits. apply Forall_cons in Hbits as [Hs Hbits].
  apply not_elem_of_cons in Hne as [Hs' Hne]. specialize (IH Hne Hbits).
  destruct s as [|a s]; [done|]. destruct Hs as [[-> | ->] _].
  - unfold tails in *. cbn [omap list_omap fmap list_fmap sum_list_with] in *.
    rewrite decide_True, decide_False by done.
    cbn [fmap list_fmap sum_list_with String.length]. rewrite IH.
    replace (S H - S (String.length s)) with (H - String.length s) by lia. lia.
  - unfold tails in *. cbn [omap list_omap fmap list_fmap sum_list_with] in *.
    rewrite decide_False, decide_True by done.
    cbn [fmap list_fmap sum_list_with String.length]. rewrite IH.
    replace (S H - S (String.length s)) with (H - String.length s) by lia. lia.
Qed.

Lemma tails_bits_only (b : ascii) (ss : list string) :
  Forall bits_only ss → Forall bits_only (tails b ss).
Proof.
  rewrite !Forall_forall. intros Hss t Ht%elem_of_tails.
  by destruct (Hss _ Ht).
Qed.

Lemma tails_length (b : ascii) (H : nat) (ss : list string) :
  Forall (λ s, String.length s ≤ S H) ss →
  Forall (λ s, String.length s ≤ H) (tails b ss).
Proof.
  rewrite !Forall_forall. intros Hss t Ht%elem_of_tails.
  specialize (Hss _ Ht). simpl in Hss. lia.
Qed.

Lemma kraft_sum_empty_string (H : nat) :
  kraft_sum H (String.length <$> [""%string]) ≤ 2 ^ H.
Proof.
  unfold kraft_sum. cbn [fmap list_fmap sum_list_with String.length].
  rewrite Nat.sub_0_r. lia.
Qed.

(** Kraft's inequality. *)
Lemma kraft_prefix_free (H : nat) :
  ∀ ss : list string,
    prefix_free_list ss → Forall bits_only ss →
    Forall (λ s, String.length s ≤ H) ss →
    kraft_sum H (String.length <$> ss) ≤ 2 ^ H.
Proof.
  induction H as [|H IH]; intros ss Hpf Hbits Hlen.
  - destruct (decide (""%string ∈ ss)) as [Hin|Hnot].
    + rewrite (prefix_free_list_empty ss Hpf Hin). apply kraft_sum_empty_string.
    + destruct ss as [|s ss]; [by unfold kraft_sum; simpl; lia|].
      apply Forall_cons in Hlen as [Hs _]. destruct s; [|simpl in Hs; lia].
      destruct Hnot. by left.
  - destruct (decide (""%string ∈ ss)) as [Hin|Hnot].
    + rewrite (prefix_free_list_empty ss Hpf Hin). apply kraft_sum_empty_string.
    + rewrite kraft_sum_tails by done.
      pose proof (IH (tails "0" ss) (prefix_free_list_tails _ _ Hpf)
                    (tails_bits_only _ _ Hbits) (tails_length _ _ _ Hlen)).
      pose proof (IH (tails "1" ss) (prefix_free_list_tails _ _ Hpf)
                    (tails_bits_only _ _ Hbits) (tails_length _ _ _ Hlen)).
      rewrite Nat.pow_succ_r'. lia.
Qed.

(** ** Code tables as depth assignments *)

Lemma prefix_free_codes_list (other : gmap ascii string) (ks : list ascii) :
  NoDup ks → prefix_free other → (∀ k, k ∈ ks → is_Some (other !! k)) →
  prefix_free_list (codes_get other <$> ks).
Proof.
  intros Hnd Hpf. induction Hnd as [|k ks Hk Hnd IH]; intros Hsome; [done|].
  csimpl. split; [|apply IH; intros k' Hk'; apply Hsome; by right].
  apply Forall_forall. intros t (k' & -> & Hk')%list_elem_of_fmap.
  destruct (Hsome k) as [s Hs]; [by left|].
  destruct (Hsome k') as [s' Hs']; [by right|].
  assert (k ≠ k') as Hne by (by intros ->).
  unfold codes_get. rewrite Hs, Hs'. simpl. split.
  - by apply (Hpf k k').
  - by apply (Hpf k' k).
Qed.

Lemma depth_cost_codes (other : gmap ascii string) (d : list (ascii * nat)) :
  depth_cost ((λ e, (e.2, String.length (codes_get other e.1))) <$> d)
  = weighted_length other d.
Proof.
  unfold depth_cost. induction d as [|[c f] d IH]; [done|].
  csimpl. by rewrite IH.
Qed.

(** X14: no prefix-free table of non-empty bit strings for the characters
    of the text gives a smaller compressed size than the code table of
    [generate_huffman_codes]. *)
Theorem no_prefix_code_is_shorter (text : string) :
  ∃ codes frequencies root,
    generate_huffman_codes text = Ok (codes, frequencies, root) ∧
    ∀ other : gmap ascii string,
      prefix_free other →
      (∀ c, c ∈ chars text →
            ∃ s, other !! c = Some s ∧ s ≠ ""%string ∧ bits_only s) →
      compressed_size frequencies codes ≤ compressed_size frequencies other.
Proof.
  destruct (generate_huffman_codes_total text) as (codes & root & Hgen & _).
  exists codes, (Counter text), root. split; [done|].
  intros other Hpf Hother.
  destruct (Counter_cases text) as [->|[(c & Hc & Hcount)|Hlen]]; [done| |].
  - pose proof (generate_huffman_codes_built text _ _
      (build_huffman_tree_single text c _ Hcount)) as Hgen'.
    rewrite Hgen in Hgen'. injection Hgen' as -> _ _.
    rewrite (compressed_size_Counter text other).
    etrans; [|apply code_length_sum_lower].
    + rewrite Hcount. unfold compressed_size, codes_get. simpl.
      rewrite lookup_insert_eq. simpl. lia.
    + intros c' Hc'. destruct (Hother c' Hc') as (s & Hs & Hne & _).
      unfold codes_get. by rewrite Hs.
  - destruct (generate_huffman_codes_greedy text Hlen)
      as (root' & Hgen' & _ & _ & _ & Hsize & Hgreedy).
    rewrite Hgen in Hgen'. injection Hgen' as -> _.
    change (_get_codes_node root' "" ∅)
      with (_get_codes_recursive (Some root') "" ∅).
    rewrite Hsize, (compressed_size_weighted _ other), <-depth_cost_codes.
    assert (∀ k, k ∈ (Counter text).*1 →
              ∃ s, other !! k = Some s ∧ s ≠ ""%string ∧ bits_only s) as Hkeys.
    { intros k Hk. apply Hother. rewrite <-Counter_keys.
      by apply elem_of_list_to_set. }
    apply (greedy_cost_optimal_within _ _ _ Hgreedy).
    + by rewrite length_fmap.
    + by rewrite <-list_fmap_compose.
    + rewrite <-list_fmap_compose.
      change (snd ∘ _) with (String.length ∘ codes_get other ∘ (fst : ascii * nat → ascii)).
      rewrite !list_fmap_compose.
      set (ss := codes_get other <$> (Counter text).*1).
      exists (max_list (String.length <$> ss)).
      assert (Forall (λ d, d ≤ max_list (String.length <$> ss)) (String.length <$> ss))
        as Hbound.
      { apply Forall_forall. intros d Hd. by apply max_list_elem_of_le. }
      split; [done|]. apply kraft_prefix_free.
      * apply prefix_free_codes_list; [apply Counter_NoDup|done|].
        intros k Hk. destruct (Hkeys k Hk) as (s & -> & _). by eexists.
      * apply Forall_forall. intros t (k & -> & Hk)%list_elem_of_fmap.
        destruct (Hkeys k Hk) as (s & Hs & _ & Hbits).
        unfold codes_get. by rewrite Hs.
      * by apply Forall_fmap in Hbound.
Qed.

Lemma code_lengths_recorded (codes : gmap ascii string)
    (l : list (ascii * nat * string)) :
  (∀ c f s, (c, f, s) ∈ l → codes !! c = Some s) →
  (λ e, String.length (codes_get codes e.1)) <$> l.*1
  = (λ e, String.length e.2) <$> l.
Proof.
  induction l as [|[[c f] s] l IH]; intros Hlook; [done|].
  csimpl. unfold codes_get at 1. rewrite (Hlook c f s) by left.
  rewrite IH; [done|]. intros c' f' s' Hin. apply (Hlook c' f' s'). by right.
Qed.

(** X15: with two or more distinct characters the code lengths fill the
    binary tree exactly (Kraft's sum is one): no bit string could be added
    to the code table as a further code without being a prefix of a code or
    having a code as prefix. *)
Theorem code_lengths_complete (text : string) :
  ∃ codes frequencies root,
    generate_huffman_codes text = Ok (codes, frequencies, root) ∧
    (1 < length frequencies →
     kraft_complete ((λ e, String.length (codes_get codes e.1)) <$> frequencies)).
Proof.
  destruct (generate_huffman_codes_total text) as (codes & root & Hgen & _).
  exists codes, (Counter text), root. split; [done|]. intros Hlen.
  destruct (generate_huffman_codes_greedy text Hlen)
    as (root' & Hgen' & Hchar & Hsb & Hleaves & _).
  rewrite Hgen in Hgen'. injection Hgen' as -> _.
  change (_get_codes_node root' "" ∅)
    with (_get_codes_recursive (Some root') "" ∅).
  assert (NoDup (symbols root')) as Hnd
    by (rewrite <-leaf_entries_symbols, Hleaves; apply Counter_NoDup).
  rewrite <-Hleaves, <-(leaves_entries root' "").
  rewrite code_lengths_recorded by (intros c f s; by apply leaves_lookup).
  pose proof (leaf_depths_complete root' Hsb) as Hkraft.
  destruct root' as [[c|] f l r]; [done|].
  rewrite <-leaf_depths_leaves_root, <-list_fmap_compose in Hkraft. done.
Qed.

Lemma depth_cost_constant (L : nat) (d : list (ascii * nat)) :
  depth_cost ((λ e, (e.2, L)) <$> d) = L * sum_list_with snd d.
Proof.
  unfold depth_cost. induction d as [|[c f] d IH]; [simpl; lia|].
  csimpl. rewrite IH. lia.
Qed.

Lemma kraft_sum_constant (L : nat) (d : list (ascii * nat)) :
  kraft_sum L ((λ e, (e.2, L)) <$> d).*2 = length d.
Proof.
  unfold kraft_sum. induction d as [|[c f] d IH]; [done|].
  csimpl. rewrite IH, Nat.sub_diag. done.
Qed.

(** X16: with at most [2 ^ L] distinct characters, [L] at least 1, the
    compressed size is at most [L] bits per character; so a text with at
    most 256 distinct characters never has negative savings against the
    8 bits per character of the original size. *)
Theorem compressed_size_fixed_length_bound (text : string) :
  ∃ codes frequencies root,
    generate_huffman_codes text = Ok (codes, frequencies, root) ∧
    (∀ L, 0 < L → length frequencies ≤ 2 ^ L →
          compressed_size frequencies codes ≤ L * String.length text) ∧
    (length frequencies ≤ 256 →
     (0 ≤ savings (size_comparison text frequencies codes))%Z).
Proof.
  destruct (generate_huffman_codes_total text) as (codes & root & Hgen & _).
  exists codes, (Counter text), root. split; [done|].
  assert (∀ L, 0 < L → length (Counter text) ≤ 2 ^ L →
            compressed_size (Counter text) codes ≤ L * String.length text) as Hbound.
  { intros L HL Hk.
    destruct (Counter_cases text) as [->|[(c & Hc & Hcount)|Hlen]];
      [unfold compressed_size; simpl; lia| |].
    - pose proof (generate_huffman_codes_built text _ _
        (build_huffman_tree_single text c _ Hcount)) as Hgen'.
      rewrite Hgen in Hgen'. injection Hgen' as -> _ _.
      rewrite Hcount. unfold compressed_size, codes_get. simpl.
      rewrite lookup_insert_eq. simpl. nia.
    - destruct (generate_huffman_codes_greedy text Hlen)
        as (root' & Hgen' & _ & _ & _ & Hsize & Hgreedy).
      rewrite Hgen in Hgen'. injection Hgen' as -> _.
      change (_get_codes_node root' "" ∅)
        with (_get_codes_recursive (Some root') "" ∅).
      rewrite Hsize, <-(Counter_total text), <-depth_cost_constant.
      apply (greedy_cost_optimal_within _ _ _ Hgreedy).
      + by rewrite length_fmap.
      + by rewrite <-list_fmap_compose.
      + exists L. split; [|by rewrite kraft_sum_constant].
        apply Forall_forall. intros d Hd.
        apply list_elem_of_fmap in Hd as ([f d'] & -> & Hd).
        apply list_elem_of_fmap in Hd as (e & [= _ <-] & _). done. }
  split; [done|]. intros Hk. specialize (Hbound 8). simpl in Hbound.
  unfold size_comparison. simpl. lia.
Qed.

(** * heapq looks at the weights only *)

Lemma result_map_bind {A B A' B' : Type} (g : A → A') (h : B → B')
    (m : result A) (k : A → result B) (k' : A' → result B') :
  (∀ a, k' (g a) = result_map h (k a)) →
  result_map g m ≫= k' = result_map h (m ≫= k).
Proof. intros Hk. destruct m; [apply Hk|done..]. Qed.

Lemma getitem_map {A B : Type} (g : A → B) (l : list A) (i : nat) :
  getitem (g <$> l) i = result_map g (getitem l i).
Proof. unfold getitem. rewrite list_lookup_fmap. by destruct (l !! i). Qed.

Lemma setitem_map {A B : Type} (g : A → B) (l : list A) (i : nat) (x : A) :
  setitem (g <$> l) i (g x) = result_map (fmap g) (setitem l i x).
Proof.
  unfold setitem. rewrite length_fmap.
  case_decide; [|done]. simpl. by rewrite list_fmap_insert.
Qed.

Lemma removelast_map {A B : Type} (g : A → B) (l : list A) :
  removelast (g <$> l) = g <$> removelast l.
Proof.
  induction l as [|x l IH]; [done|]. destruct l as [|y l]; [done|].
  simpl in *. by rewrite IH.
Qed.

Lemma list_pop_map {A B : Type} (g : A → B) (l : list A) :
  list_pop (g <$> l) = result_map (prod_map g (fmap g)) (list_pop l).
Proof.
  unfold list_pop. rewrite fmap_last.
  destruct (last l); simpl; [|done]. by rewrite removelast_map.
Qed.

Section weights_only.
Context (g : Node → Node) (Hg : ∀ x, freq (g x) = freq x).

Lemma Node_lt_map (a b : Node) : Node_lt (g a) (g b) = Node_lt a b.
Proof using Hg. unfold Node_lt. by rewrite !Hg. Qed.

Lemma _siftdown_while_map (fuel : nat) :
  ∀ heap newitem startpos pos,
    _siftdown_while fuel (g <$> heap) (g newitem) startpos pos
    = result_map (prod_map (fmap g) id) (_siftdown_while fuel heap newitem startpos pos).
Proof using Hg.
  induction fuel as [|fuel IH]; intros heap newitem startpos pos; cbn [_siftdown_while].
  - by case_decide.
  - case_decide; [|done]. rewrite getitem_map.
    apply result_map_bind. intros parent. rewrite Node_lt_map.
    destruct (Node_lt newitem parent); [|done].
    rewrite setitem_map. apply result_map_bind. intros heap'. apply IH.
Qed.

Lemma _siftdown_map (heap : list Node) (startpos pos : nat) :
  _siftdown (g <$> heap) startpos pos = result_map (fmap g) (_siftdown heap startpos pos).
Proof using Hg.
  unfold _siftdown. rewrite getitem_map. apply result_map_bind. intros newitem.
  rewrite _siftdown_while_map. apply result_map_bind. intros [heap' pos'].
  apply setitem_map.
Qed.

Lemma _siftup_while_map (fuel : nat) :
  ∀ heap endpos pos childpos,
    _siftup_while fuel (g <$> heap) endpos pos childpos
    = result_map (prod_map (fmap g) id) (_siftup_while fuel heap endpos pos childpos).
Proof using Hg.
  induction fuel as [|fuel IH]; intros heap endpos pos childpos; cbn [_siftup_while].
  - by case_decide.
  - case_decide; [|done].
    assert (∀ cp,
      (child ← getitem (g <$> heap) cp;
       heap' ← setitem (g <$> heap) pos child;
       _siftup_while fuel heap' endpos cp (2 * cp + 1))
      =@{result (list Node * nat)} result_map (prod_map (fmap g) id)
          (child ← getitem heap cp;
           heap' ← setitem heap pos child;
           _siftup_while fuel heap' endpos cp (2 * cp + 1))) as Htail.
    { intros cp. rewrite getitem_map. apply result_map_bind. intros child.
      rewrite setitem_map. apply result_map_bind. intros heap'. apply IH. }
    case_decide; [|rewrite !bind_Ok; apply Htail].
    rewrite !getitem_map.
    destruct (getitem heap childpos) as [l| |]; [|done..].
    destruct (getitem heap (childpos + 1)) as [r| |]; [|done..].
    cbn [result_map]. rewrite !bind_Ok, Node_lt_map. apply Htail.
Qed.

Lemma _siftup_map (heap : list Node) (pos : nat) :
  _siftup (g <$> heap) pos = result_map (fmap g) (_siftup heap pos).
Proof using Hg.
  unfold _siftup. rewrite length_fmap, getitem_map.
  apply result_map_bind. intros newitem.
  rewrite _siftup_while_map. apply result_map_bind. intros [heap' pos'].
  unfold prod_map. cbn [fst snd id]. rewrite setitem_map. apply result_map_bind. intros heap''.
  apply _siftdown_map.
Qed.

Lemma heappush_map (heap : list Node) (item : Node) :
  heappush (g <$> heap) (g item) = result_map (fmap g) (heappush heap item).
Proof using Hg.
  unfold heappush. change [g item] with (g <$> [item]).
  rewrite <-fmap_app, length_fmap. apply _siftdown_map.
Qed.

Lemma heappop_map (heap : list Node) :
  heappop (g <$> heap) = result_map (prod_map g (fmap g)) (heappop heap).
Proof using Hg.
  unfold heappop. rewrite list_pop_map. apply result_map_bind.
  intros [lastelt heap']. cbn [prod_map fst snd].
  destruct heap' as [|x heap']; [done|].
  change (g <$> x :: heap') with (g <$> (x :: heap')) at 1.
  rewrite getitem_map. apply result_map_bind. intros returnitem.
  rewrite setitem_map. apply result_map_bind. intros heap''.
  rewrite _siftup_map. by apply result_map_bind.
Qed.

Lemma merge_step_map (pq : list Node) :
  (∀ l r, g (merged l r) = merged (g l) (g r)) →
  merge_step (g <$> pq) = result_map (fmap g) (merge_step pq).
Proof using Hg.
  intros Hmerged. unfold merge_step. rewrite heappop_map.
  apply result_map_bind. intros [l pq1]. cbn [prod_map fst snd].
  rewrite heappop_map. apply result_map_bind. intros [r pq2]. cbn [prod_map fst snd].
  change (heappush (g <$> pq2) (merged (g l) (g r))
          = result_map (fmap g) (heappush pq2 (merged l r))).
  rewrite <-Hmerged. apply heappush_map.
Qed.

Lemma merge_while_map (fuel : nat) :
  (∀ l r, g (merged l r) = merged (g l) (g r)) →
  ∀ pq, merge_while fuel (g <$> pq) = result_map (fmap g) (merge_while fuel pq).
Proof using Hg.
  intros Hmerged. induction fuel as [|fuel IH]; intros pq; cbn [merge_while];
    rewrite length_fmap.
  - by case_decide.
  - case_decide; [|done]. rewrite merge_step_map by done.
    by apply result_map_bind.
Qed.

Lemma wrap_single_map (pq : list Node) :
  (∀ n, g (wrapper n) = wrapper (g n)) →
  wrap_single (g <$> pq) = result_map (fmap g) (wrap_single pq).
Proof using Hg.
  intros Hwrapper. unfold wrap_single. rewrite length_fmap.
  case_decide; [|done]. rewrite heappop_map.
  apply result_map_bind. intros [n pq1]. cbn [prod_map fst snd].
  change (heappush (g <$> pq1) (wrapper (g n))
          = result_map (fmap g) (heappush pq1 (wrapper n))).
  rewrite <-Hwrapper. apply heappush_map.
Qed.

End weights_only.

(** * Renaming the characters renames the leaves and nothing else *)

Section renaming.
Context (ρ : ascii → ascii) `{!Inj (=) (=) ρ}.

Lemma freq_relabel (n : Node) : freq (relabel ρ n) = freq n.
Proof. by destruct n. Qed.

Lemma relabel_merged (l r : Node) :
  relabel ρ (merged l r) = merged (relabel ρ l) (relabel ρ r).
Proof. unfold merged. cbn [relabel]. by rewrite !freq_relabel. Qed.

Lemma relabel_wrapper (n : Node) : relabel ρ (wrapper n) = wrapper (relabel ρ n).
Proof. unfold wrapper. cbn [relabel]. by rewrite !freq_relabel. Qed.

Lemma Counter_incr_rename (c : ascii) (d : list (ascii * nat)) :
  Counter_incr (ρ c) (prod_map ρ id <$> d) = prod_map ρ id <$> Counter_incr c d.
Proof.
  induction d as [|[k n] d IH]; [done|]. csimpl.
  destruct (decide (k = c)) as [->|Hne].
  - by rewrite decide_True.
  - rewrite decide_False by (by intros ?%(inj ρ)). csimpl. by rewrite IH.
Qed.

Lemma Counter_update_rename (text : string) :
  ∀ d, Counter_update (rename ρ text) (prod_map ρ id <$> d)
       = prod_map ρ id <$> Counter_update text d.
Proof.
  induction text as [|c text IH]; intros d; [done|].
  cbn [rename Counter_update]. by rewrite Counter_incr_rename, IH.
Qed.

Lemma Counter_rename (text : string) :
  Counter (rename ρ text) = prod_map ρ id <$> Counter text.
Proof. apply (Counter_update_rename text []). Qed.

Lemma push_leaves_rename (items : list (ascii * nat)) :
  ∀ pq, push_leaves (prod_map ρ id <$> items) (relabel ρ <$> pq)
        = result_map (fmap (relabel ρ)) (push_leaves items pq).
Proof.
  induction items as [|[c f] items IH]; intros pq; [done|].
  csimpl. change (mkNode (Some (ρ c)) f None None)
    with (relabel ρ (mkNode (Some c) f None None)).
  rewrite (heappush_map _ freq_relabel). by apply result_map_bind.
Qed.

Lemma build_huffman_tree_rename (text : string) :
  build_huffman_tree (rename ρ text)
  = result_map (prod_map (fmap (relabel ρ)) (fmap (prod_map ρ id)))
      (build_huffman_tree text).
Proof.
  destruct text as [|a text]; [done|].
  change (rename ρ (String a text)) with (String (ρ a) (rename ρ text)).
  unfold build_huffman_tree.
  change (String (ρ a) (rename ρ text)) with (rename ρ (String a text)).
  rewrite Counter_rename. change [] with (relabel ρ <$> []) at 1.
  rewrite push_leaves_rename. apply result_map_bind. intros pq.
  rewrite (wrap_single_map _ freq_relabel) by apply relabel_wrapper.
  apply result_map_bind. intros pq1.
  rewrite length_fmap, (merge_while_map _ freq_relabel) by apply relabel_merged.
  apply result_map_bind. intros pq2.
  rewrite (heappop_map _ freq_relabel). by apply result_map_bind; intros [root rest].
Qed.

Lemma _get_codes_node_rename (n : Node) :
  ∀ current_code codes,
    _get_codes_node (relabel ρ n) current_code (kmap ρ codes)
    = kmap ρ (_get_codes_node n current_code codes).
Proof.
  induction n as [[c|] f l r IHl IHr] using Node_children_ind; intros cc codes.
  - destruct cc; simpl; by rewrite kmap_insert.
  - cbn [relabel fmap option_fmap option_map _get_codes_node].
    destruct l as [l|], r as [r|]; simpl in IHl, IHr; by rewrite ?IHl, ?IHr.
Qed.

Lemma generate_huffman_codes_rename (text : string) :
  generate_huffman_codes (rename ρ text)
  = result_map (λ out, (kmap ρ out.1.1, prod_map ρ id <$> out.1.2, relabel ρ <$> out.2))
      (generate_huffman_codes text).
Proof.
  unfold generate_huffman_codes. rewrite build_huffman_tree_rename.
  apply result_map_bind. intros [[root|] frequencies]; cbn [prod_map fst snd fmap option_fmap option_map].
  - cbn [result_map fst snd _get_codes_recursive].
    by rewrite <-_get_codes_node_rename, kmap_empty.
  - cbn [result_map fst snd]. by rewrite kmap_empty.
Qed.

End renaming.

Lemma swap_case_inj : Inj (=) (=) swap_case.
Proof.
  intros [a0 a1 a2 a3 a4 a5 a6 a7] [b0 b1 b2 b3 b4 b5 b6 b7] [= -> -> -> -> -> H -> ->].
  by destruct a5, b5.
Qed.

(** X17: the characters themselves play no part in building the tree:
    renaming them one-to-one renames the keys of the frequency table, the
    characters at the leaves and the keys of the code table, and changes
    nothing else, neither the shape of the tree, nor which of two nodes of
    equal weight is popped first, nor any code. *)
Theorem renaming_characters (ρ : ascii → ascii) (text : string) :
  Inj (=) (=) ρ →
  ∃ codes frequencies root,
    generate_huffman_codes text = Ok (codes, frequencies, root) ∧
    generate_huffman_codes (rename ρ text)
    = Ok (kmap ρ codes, prod_map ρ id <$> frequencies, relabel ρ <$> root) ∧
    ∀ c, (kmap ρ codes : gmap ascii string) !! ρ c = codes !! c.
Proof.
  intros Hinj.
  destruct (generate_huffman_codes_total text) as (codes & root & Hgen & _).
  exists codes, (Counter text), root. split_and!; [done| |].
  - by rewrite generate_huffman_codes_rename, Hgen.
  - intros c. apply lookup_kmap, _.
Qed.

Lemma renaming_characters_AAB :
  Inj (=) (=) swap_case ∧
  ∃ codes frequencies root,
    generate_huffman_codes "AAB" = Ok (codes, frequencies, root) ∧
    generate_huffman_codes (rename swap_case "AAB")
    = Ok (kmap swap_case codes, prod_map swap_case id <$> frequencies,
          relabel swap_case <$> root) ∧
    ∀ c, (kmap swap_case codes : gmap ascii string) !! swap_case c = codes !! c.
Proof.
  split; [exact swap_case_inj|].
  exact (renaming_characters swap_case "AAB" swap_case_inj).
Defined.
